(** * SchoolAI: the audio pipeline and the playback component

    A shallow embedding of [utils/audio.ts] (base64 decoding, the WAV
    writer, the PCM decoder), of [services/geminiService.ts], of the state
    handlers of [App.tsx] and of the playback logic of
    [components/Summarizer.tsx], together with the parts of the browser
    platform these call ([atob], typed arrays, [DataView], the Web Audio
    objects).

    Conventions.
    - Indices, offsets and lengths are [nat]; numeric values written into
      buffers are [Z] with the conversions of the platform ([ToUint8],
      [ToUint16], [ToUint32]) written out.
    - A JavaScript exception is a value of [Result]; an [async] function
      that rejects is modelled by the same [Throw].
    - Samples are [Float32] values: a rational or [NaN].  Every sample the
      decoder stores is [s / 32768] for a 16-bit integer [s], which binary32
      and binary64 both represent exactly, so no rounding is involved
      (lemma [decodePcmData_samples_binary32]). *)

From Stdlib Require Import ZArith List String Ascii Bool Lia QArith.
From Stdlib.Strings Require Import Byte.
Import ListNotations.
Close Scope Q_scope.

(** ** The platform *)

Module Js.

(** The exceptions the modelled platform calls can throw. *)
Inductive Exception : Type :=
| InvalidCharacterError   (* atob: not a base64 string *)
| RangeError              (* typed array / DataView: bad length or offset *)
| NotSupportedError       (* BaseAudioContext.createBuffer: bad argument *)
| InvalidStateError.      (* AudioScheduledSourceNode.stop before start *)

Inductive Result (A : Type) : Type :=
| Ok (a : A)
| Throw (e : Exception).

Arguments Ok {A} a.
Arguments Throw {A} e.

Definition bind {A B} (r : Result A) (k : A -> Result B) : Result B :=
  match r with
  | Ok a => k a
  | Throw e => Throw e
  end.

(** [for (let i = start; i < start + n; i++) body], the state threaded
    through the iterations. *)
Fixpoint for_loop {St : Type} (n : nat) (i : nat)
         (body : nat -> St -> St) (s : St) : St :=
  match n with
  | O => s
  | S n' => for_loop n' (S i) body (body i s)
  end.

(** *** Bytes and integer conversions *)

Definition byte_to_Z (b : byte) : Z := Z.of_N (Byte.to_N b).

Definition ToUint8 (v : Z) : byte :=
  match Byte.of_N (Z.to_N (v mod 256)) with
  | Some b => b
  | None => x00
  end.

Definition ToUint16 (v : Z) : Z := (v mod 65536)%Z.
Definition ToUint32 (v : Z) : Z := (v mod 4294967296)%Z.

(** The [n] low bytes of [v], least significant first. *)
Fixpoint bytes_le (n : nat) (v : Z) : list byte :=
  match n with
  | O => []
  | S n' => ToUint8 v :: bytes_le n' (v / 256)
  end.

(** Reading bytes back as an unsigned little-endian number. *)
Fixpoint uint_le (bs : list byte) : Z :=
  match bs with
  | [] => 0%Z
  | b :: r => (byte_to_Z b + 256 * uint_le r)%Z
  end.

(** *** ArrayBuffer and DataView *)

Definition ArrayBuffer : Type := list byte.

(** [new ArrayBuffer(n)]: [n] zero bytes. *)
Definition new_ArrayBuffer (n : nat) : ArrayBuffer := repeat x00 n.

Fixpoint overwrite (bs : list byte) (buf : ArrayBuffer) : ArrayBuffer :=
  match bs, buf with
  | b :: bs', _ :: r => b :: overwrite bs' r
  | _, _ => buf
  end.

(** The buffer with [bs] stored from position [off] on. *)
Fixpoint write_at (off : nat) (bs : list byte) (buf : ArrayBuffer)
  : ArrayBuffer :=
  match off, buf with
  | O, _ => overwrite bs buf
  | S o, x :: r => x :: write_at o bs r
  | S _, [] => []
  end.

(** A [DataView] over a whole buffer.  Its setters mutate the buffer and
    throw a [RangeError] when the write would pass its end: a computation
    over a view is a state-and-error computation on the buffer. *)
Definition DataView (A : Type) : Type := ArrayBuffer -> Result (A * ArrayBuffer).

Definition dv_ret {A} (a : A) : DataView A := fun buf => Ok (a, buf).

Definition dv_bind {A B} (m : DataView A) (k : A -> DataView B) : DataView B :=
  fun buf =>
    match m buf with
    | Ok (a, buf') => k a buf'
    | Throw e => Throw e
    end.

Definition dv_store (byteOffset : nat) (bs : list byte) : DataView unit :=
  fun buf =>
    if (byteOffset + List.length bs <=? List.length buf)%nat
    then Ok (tt, write_at byteOffset bs buf)
    else Throw RangeError.

Definition endian (littleEndian : bool) (bs : list byte) : list byte :=
  if littleEndian then bs else rev bs.

Definition setUint8 (byteOffset : nat) (value : Z) : DataView unit :=
  dv_store byteOffset [ToUint8 value].

Definition setUint16 (byteOffset : nat) (value : Z) (littleEndian : bool)
  : DataView unit :=
  dv_store byteOffset (endian littleEndian (bytes_le 2 (ToUint16 value))).

Definition setUint32 (byteOffset : nat) (value : Z) (littleEndian : bool)
  : DataView unit :=
  dv_store byteOffset (endian littleEndian (bytes_le 4 (ToUint32 value))).

(** [for (let i = 0; i < n; i++) body(i)] inside a view computation. *)
Fixpoint dv_for (n : nat) (i : nat) (body : nat -> DataView unit)
  : DataView unit :=
  match n with
  | O => dv_ret tt
  | S n' => dv_bind (body i) (fun _ => dv_for n' (S i) body)
  end.

(** *** Typed arrays *)

(** A [Uint8Array] is a window of [length] bytes, [byteOffset] bytes into
    its underlying buffer. *)
Record Uint8Array : Type := mkUint8Array {
  buffer : ArrayBuffer;
  byteOffset : nat;
  length : nat
}.

(** [new Uint8Array(len)]: a fresh zeroed buffer, spanned whole. *)
Definition new_Uint8Array (len : nat) : Uint8Array :=
  mkUint8Array (new_ArrayBuffer len) 0 len.

(** The array that holds exactly the byte sequence [bs]. *)
Definition Uint8Array_of (bs : list byte) : Uint8Array :=
  mkUint8Array bs 0 (List.length bs).

(** [arr[i]]: a number, or [None] for JavaScript's [undefined]. *)
Definition u8_get (arr : Uint8Array) (i : nat) : option Z :=
  if (i <? length arr)%nat
  then option_map byte_to_Z (nth_error (buffer arr) (byteOffset arr + i))
  else None.

(** [arr[i] = v]: ignored when [i] is not an index of the array. *)
Definition u8_set (arr : Uint8Array) (i : nat) (v : Z) : Uint8Array :=
  if (i <? length arr)%nat
  then mkUint8Array (write_at (byteOffset arr + i) [ToUint8 v] (buffer arr))
                    (byteOffset arr) (length arr)
  else arr.

(** The bytes seen through the window. *)
Definition u8_elements (arr : Uint8Array) : list byte :=
  firstn (length arr) (skipn (byteOffset arr) (buffer arr)).

(** An optional number handed to an integer conversion: [undefined] and
    [NaN] convert to [0]. *)
Definition number_of (o : option Z) : Z :=
  match o with
  | Some v => v
  | None => 0%Z
  end.

(** An [Int16Array] over a whole buffer; elements are read in the byte
    order of the platform, little-endian on every platform browsers run
    on. *)
Record Int16Array : Type := mkInt16Array {
  i16_buffer : ArrayBuffer;
  i16_length : nat
}.

(** [new Int16Array(buffer)]: a [RangeError] unless the byte length of the
    buffer is a multiple of the element size. *)
Definition new_Int16Array (buf : ArrayBuffer) : Result Int16Array :=
  if (List.length buf mod 2 =? 0)%nat
  then Ok (mkInt16Array buf (List.length buf / 2))
  else Throw RangeError.

Definition int16_le (lo hi : byte) : Z :=
  let u := (byte_to_Z lo + 256 * byte_to_Z hi)%Z in
  if (u <? 32768)%Z then u else (u - 65536)%Z.

Definition i16_get (a : Int16Array) (i : nat) : option Z :=
  if (i <? i16_length a)%nat then
    match nth_error (i16_buffer a) (2 * i), nth_error (i16_buffer a) (2 * i + 1) with
    | Some lo, Some hi => Some (int16_le lo hi)
    | _, _ => None
    end
  else None.

(** *** Web Audio buffers *)

Inductive Float32 : Type :=
| Num (q : Q)
| NaN.

(** [x / 32768.0] for an element read from an [Int16Array]. *)
Definition div_32768 (x : option Z) : Float32 :=
  match x with
  | Some s => Num (Qred (s # 32768))
  | None => NaN
  end.

Record AudioBuffer : Type := mkAudioBuffer {
  numberOfChannels : nat;
  ab_length : nat;
  sampleRate : Z;
  channelData : list (list Float32)
}.

Inductive ContextState : Type := suspended | running | closed.

Record AudioContext : Type := mkAudioContext {
  ctx_sampleRate : Z;
  ctx_state : ContextState
}.

(** [ctx.createBuffer(numberOfChannels, length, sampleRate)]: a silent
    buffer.  The Web Audio API has it throw a [NotSupportedError] when an
    argument is zero or outside its nominal range; 1 to 32 channels and
    rates from 8000 to 96000 Hz are the ranges every implementation
    accepts. *)
Definition createBuffer (ctx : AudioContext)
           (nChannels : nat) (len : nat) (rate : Z) : Result AudioBuffer :=
  if ((1 <=? nChannels) && (nChannels <=? 32) && (1 <=? len))%nat
     && ((8000 <=? rate) && (rate <=? 96000))%Z
  then Ok (mkAudioBuffer nChannels len rate
             (repeat (repeat (Num 0) len) nChannels))
  else Throw NotSupportedError.

(** Storing into the [Float32Array] of one channel; out of range stores
    are ignored. *)
Fixpoint list_set {A} (i : nat) (v : A) (l : list A) : list A :=
  match i, l with
  | O, _ :: r => v :: r
  | S j, x :: r => x :: list_set j v r
  | _, [] => []
  end.

Definition channel_set (b : AudioBuffer) (channel i : nat) (v : Float32)
  : AudioBuffer :=
  mkAudioBuffer (numberOfChannels b) (ab_length b) (sampleRate b)
    (match nth_error (channelData b) channel with
     | Some data => list_set channel (list_set i v data) (channelData b)
     | None => channelData b
     end).

(** *** Blobs *)

Record Blob : Type := mkBlob {
  blob_bytes : list byte;
  blob_type : string
}.

(** *** Strings and [atob] *)

(** [s.charCodeAt(i)]: [None] is [NaN], the answer past the end. *)
Definition charCodeAt (s : string) (i : nat) : option Z :=
  option_map (fun c => Z.of_N (N_of_ascii c)) (String.get i s).

(** A string is truthy when it is not empty. *)
Definition truthy (s : string) : bool :=
  match s with
  | EmptyString => false
  | String _ _ => true
  end.

Definition is_ascii_whitespace (c : ascii) : bool :=
  let n := N_of_ascii c in
  ((n =? 9) || (n =? 10) || (n =? 12) || (n =? 13) || (n =? 32))%N.

(** Position of a character in the base64 alphabet
    [A-Z], [a-z], [0-9], [+], [/]. *)
Definition base64_index (c : ascii) : option Z :=
  let n := Z.of_N (N_of_ascii c) in
  (if (65 <=? n) && (n <=? 90) then Some (n - 65)
   else if (97 <=? n) && (n <=? 122) then Some (n - 71)
   else if (48 <=? n) && (n <=? 57) then Some (n + 4)
   else if n =? 43 then Some 62
   else if n =? 47 then Some 63
   else None)%Z.

Definition is_pad (c : ascii) : bool := (N_of_ascii c =? 61)%N.

(** Removing one or two [=] from the end of the data. *)
Fixpoint strip_padding (l : list ascii) : list ascii :=
  match l with
  | [] => []
  | c :: r =>
      match r with
      | [] => if is_pad c then [] else [c]
      | [d] => if is_pad c && is_pad d then [] else c :: strip_padding r
      | _ => c :: strip_padding r
      end
  end.

Fixpoint sextets (l : list ascii) : option (list Z) :=
  match l with
  | [] => Some []
  | c :: r =>
      match base64_index c, sextets r with
      | Some v, Some vs => Some (v :: vs)
      | _, _ => None
      end
  end.

(** Four sextets give three bytes; a rest of three gives two bytes and a
    rest of two gives one, the spare low bits discarded. *)
Fixpoint bytes_of_sextets (l : list Z) : list byte :=
  match l with
  | a :: b :: c :: d :: r =>
      let n := (((a * 64 + b) * 64 + c) * 64 + d)%Z in
      ToUint8 (n / 65536) :: ToUint8 (n / 256) :: ToUint8 n
        :: bytes_of_sextets r
  | [a; b; c] =>
      let n := ((((a * 64 + b) * 64 + c)) / 4)%Z in
      [ToUint8 (n / 256); ToUint8 n]
  | [a; b] =>
      let n := ((a * 64 + b) / 16)%Z in
      [ToUint8 n]
  | _ => []
  end.

(** The "forgiving-base64 decode" of the WHATWG Infra standard, which
    [atob] runs: drop ASCII whitespace; when the length is a multiple of
    four, drop one or two trailing [=]; fail on a length that is 1 modulo 4
    or on a character outside the alphabet; then decode. *)
Definition forgiving_base64_decode (data : list ascii) : option (list byte) :=
  let data := filter (fun c => negb (is_ascii_whitespace c)) data in
  let data := if (List.length data mod 4 =? 0)%nat
              then strip_padding data else data in
  if (List.length data mod 4 =? 1)%nat then None
  else option_map bytes_of_sextets (sextets data).

(** [atob(data)]: the decoded bytes as a binary string, one character per
    byte, or an [InvalidCharacterError]. *)
Definition atob (data : string) : Result string :=
  match forgiving_base64_decode (list_ascii_of_string data) with
  | Some bytes => Ok (string_of_list_byte bytes)
  | None => Throw InvalidCharacterError
  end.

End Js.

Declare Scope js_scope.
Delimit Scope js_scope with js.
Notation "x <- e ;; k" := (Js.bind e (fun x => k))
  (at level 61, e at next level, right associativity) : js_scope.

Declare Scope view_scope.
Delimit Scope view_scope with view.
Notation "e ;; k" := (Js.dv_bind e (fun _ => k))
  (at level 61, right associativity) : view_scope.

(** ** [utils/audio.ts] *)

Module Audio.
Import Js.

(** Decode a base64 string into a [Uint8Array]. *)
Definition decode (base64 : string) : Result Uint8Array :=
  (binaryString <- atob base64 ;;
   let len := String.length binaryString in
   let bytes := new_Uint8Array len in
   Ok (for_loop len 0
         (fun i bytes => u8_set bytes i (number_of (charCodeAt binaryString i)))
         bytes))%js.

(** Write a string to a [DataView]. *)
Definition writeString (offset : nat) (string : string) : DataView unit :=
  dv_for (String.length string) 0
    (fun i => setUint8 (offset + i) (number_of (charCodeAt string i))).

(** Create a WAV file [Blob] from raw PCM data. *)
Definition createWavBlob (pcmData : Uint8Array) : Result Blob :=
  let sampleRate := 24000%Z in
  let numChannels := 1%Z in
  let bitsPerSample := 16%Z in
  let dataSize := length pcmData in
  let blockAlign := ((numChannels * bitsPerSample) / 8)%Z in
  let byteRate := (sampleRate * blockAlign)%Z in
  let buffer := new_ArrayBuffer (44 + dataSize) in
  let view : DataView unit :=
    ((* RIFF chunk descriptor *)
     writeString 0 "RIFF" ;;
     setUint32 4 (36 + Z.of_nat dataSize) true ;;
     writeString 8 "WAVE" ;;
     (* "fmt " sub-chunk *)
     writeString 12 "fmt " ;;
     setUint32 16 16 true ;;
     setUint16 20 1 true ;;
     setUint16 22 numChannels true ;;
     setUint32 24 sampleRate true ;;
     setUint32 28 byteRate true ;;
     setUint16 32 blockAlign true ;;
     setUint16 34 bitsPerSample true ;;
     (* "data" sub-chunk *)
     writeString 36 "data" ;;
     setUint32 40 (Z.of_nat dataSize) true ;;
     (* Write PCM data *)
     dv_for (length pcmData) 0
       (fun i => setUint8 (44 + i) (number_of (u8_get pcmData i))))%view in
  (r <- view buffer ;;
   Ok (mkBlob (snd r) "audio/wav"))%js.

(** Decode raw PCM audio data into an [AudioBuffer] for playback.  The
    function is [async]: a thrown exception is the rejection of the promise
    it returns. *)
Definition decodePcmData (pcmData : Uint8Array) (ctx : AudioContext)
  : Result AudioBuffer :=
  let sampleRate := 24000%Z in
  let numChannels := 1 in
  (dataInt16 <- new_Int16Array (buffer pcmData) ;;
   let frameCount := i16_length dataInt16 / numChannels in
   buffer <- createBuffer ctx numChannels frameCount sampleRate ;;
   Ok (for_loop numChannels 0
         (fun channel buffer =>
            for_loop frameCount 0
              (fun i buffer =>
                 channel_set buffer channel i
                   (div_32768 (i16_get dataInt16 (i * numChannels + channel))))
              buffer)
         buffer))%js.

End Audio.

(** The reference encoder of the round-trip property: base64 of RFC 4648,
    section 4, with padding.  It is not part of the repository; it follows
    the standard. *)
Module Reference.
Import Js.

Definition base64_char (v : Z) : ascii :=
  ascii_of_N (Z.to_N
    (if v <? 26 then v + 65
     else if v <? 52 then v + 71
     else if v <? 62 then v - 4
     else if v =? 62 then 43
     else 47)%Z).

Definition pad : ascii := "="%char.

Fixpoint base64Encode_chars (bytes : list byte) : list ascii :=
  match bytes with
  | [] => []
  | [a] =>
      let a := byte_to_Z a in
      [base64_char (a / 4); base64_char ((a mod 4) * 16); pad; pad]
  | [a; b] =>
      let a := byte_to_Z a in
      let b := byte_to_Z b in
      [base64_char (a / 4); base64_char ((a mod 4) * 16 + b / 16);
       base64_char ((b mod 16) * 4); pad]
  | a :: b :: c :: rest =>
      let a := byte_to_Z a in
      let b := byte_to_Z b in
      let c := byte_to_Z c in
      base64_char (a / 4) :: base64_char ((a mod 4) * 16 + b / 16)
        :: base64_char ((b mod 16) * 4 + c / 64) :: base64_char (c mod 64)
        :: base64Encode_chars rest
  end%Z.

Definition base64Encode (bytes : list byte) : string :=
  string_of_list_ascii (base64Encode_chars bytes).

End Reference.

(** ** [services/geminiService.ts] *)

Module GeminiService.
Import Js.
Local Open Scope string_scope.

(** A thrown value, as a [catch] clause tells them apart with
    [err instanceof Error]. *)
Inductive Thrown : Type :=
| ErrorObject (message : string)
| NotAnError.

Inductive Outcome (A : Type) : Type :=
| Returned (a : A)
| Threw (t : Thrown).

Arguments Returned {A} a.
Arguments Threw {A} t.

(** What the remote [generateContent] call does: it rejects, or it answers
    with a text and possibly inline audio data. *)
Inductive ApiReply : Type :=
| Responds (text : string) (inlineData : option string)
| Rejects.

Definition transcribeAudio (reply : ApiReply) : Outcome string :=
  match reply with
  | Responds text _ => Returned text
  | Rejects =>
      Threw (ErrorObject
        "Failed to transcribe audio. The model may not have been able to process the file.")
  end.

Definition summarizeText (reply : ApiReply) : Outcome string :=
  match reply with
  | Responds text _ => Returned text
  | Rejects => Threw (ErrorObject "Failed to summarize text.")
  end.

(** The error thrown for missing audio data is thrown inside the [try] and
    so is replaced by the one of the [catch]. *)
Definition generateSpeech (reply : ApiReply) : Outcome string :=
  match reply with
  | Responds _ (Some base64Audio) =>
      if truthy base64Audio then Returned base64Audio
      else Threw (ErrorObject "Failed to generate speech from summary.")
  | _ => Threw (ErrorObject "Failed to generate speech from summary.")
  end.

End GeminiService.

(** ** [App.tsx]: the lifted state and its handlers *)

Module App.
Import Js GeminiService.
Local Open Scope string_scope.

Inductive View : Type := summarizer | chatbot.

(** A [File] object: its identity and its MIME type. *)
Record File : Type := mkFile {
  file_id : nat;
  file_type : string
}.

Record State : Type := mkState {
  view : View;
  transcription : string;
  summary : string;
  audioFile : option File;
  isLoading : bool;
  loadingStep : string;
  error : option string;
  summaryAudio : option string
}.

Definition initial : State :=
  mkState summarizer "" "" None false "" None None.

Definition setView (v : View) (s : State) : State :=
  mkState v (transcription s) (summary s) (audioFile s) (isLoading s)
          (loadingStep s) (error s) (summaryAudio s).
Definition setTranscription (v : string) (s : State) : State :=
  mkState (view s) v (summary s) (audioFile s) (isLoading s)
          (loadingStep s) (error s) (summaryAudio s).
Definition setSummary (v : string) (s : State) : State :=
  mkState (view s) (transcription s) v (audioFile s) (isLoading s)
          (loadingStep s) (error s) (summaryAudio s).
Definition setAudioFile (v : option File) (s : State) : State :=
  mkState (view s) (transcription s) (summary s) v (isLoading s)
          (loadingStep s) (error s) (summaryAudio s).
Definition setIsLoading (v : bool) (s : State) : State :=
  mkState (view s) (transcription s) (summary s) (audioFile s) v
          (loadingStep s) (error s) (summaryAudio s).
Definition setLoadingStep (v : string) (s : State) : State :=
  mkState (view s) (transcription s) (summary s) (audioFile s) (isLoading s)
          v (error s) (summaryAudio s).
Definition setError (v : option string) (s : State) : State :=
  mkState (view s) (transcription s) (summary s) (audioFile s) (isLoading s)
          (loadingStep s) v (summaryAudio s).
Definition setSummaryAudio (v : option string) (s : State) : State :=
  mkState (view s) (transcription s) (summary s) (audioFile s) (isLoading s)
          (loadingStep s) (error s) v.

(** The points at which the two [async] handlers are suspended. *)
Inductive Suspended : Type :=
| AwaitTranscribe   (* processAudio: fileToBase64, getFileMimeType, transcribeAudio *)
| AwaitSummarize    (* processAudio: summarizeText *)
| AwaitSpeech.      (* handleGenerateSpeech: generateSpeech *)

Definition error_message (err : Thrown) (fallback : string) : string :=
  match err with
  | ErrorObject message => message
  | NotAnError => fallback
  end.

Definition handleFileChange (file : option File) (s : State) : State :=
  match file with
  | Some f =>
      if String.prefix "audio/" (file_type f)
      then setSummaryAudio None (setError None (setSummary ""
             (setTranscription "" (setAudioFile (Some f) s))))
      else setAudioFile None
             (setError (Some "Please upload a valid audio file.") s)
  | None =>
      setAudioFile None (setError (Some "Please upload a valid audio file.") s)
  end.

(** The [finally] blocks of both handlers. *)
Definition finally (s : State) : State :=
  setLoadingStep "" (setIsLoading false s).

(** [processAudio], up to its first [await]. *)
Definition processAudio (s : State) : State * option Suspended :=
  match audioFile s with
  | None => (setError (Some "Please select an audio file first.") s, None)
  | Some _ =>
      (setLoadingStep "Transcribing audio..."
         (setSummaryAudio None (setSummary "" (setTranscription ""
            (setError None (setIsLoading true s))))),
       Some AwaitTranscribe)
  end.

Definition processAudio_catch (err : Thrown) (s : State) : State :=
  finally (setError (Some (error_message err "An unknown error occurred.")) s).

(** [processAudio], from the end of step 1 to [await summarizeText]. *)
Definition processAudio_transcribed (r : Outcome string) (s : State)
  : State * option Suspended :=
  match r with
  | Returned transcribedText =>
      (setLoadingStep "Summarizing text..."
         (setTranscription transcribedText s),
       Some AwaitSummarize)
  | Threw err => (processAudio_catch err s, None)
  end.

(** [processAudio], from the end of step 2 on. *)
Definition processAudio_summarized (r : Outcome string) (s : State) : State :=
  match r with
  | Returned summarizedText => finally (setSummary summarizedText s)
  | Threw err => processAudio_catch err s
  end.

(** [handleGenerateSpeech], up to [await generateSpeech(summary)]. *)
Definition handleGenerateSpeech (s : State) : State * option Suspended :=
  if negb (truthy (summary s))
  then (setError (Some "No summary available to generate speech.") s, None)
  else (setError None (setLoadingStep "Generating speech..."
          (setIsLoading true s)),
        Some AwaitSpeech).

(** [handleGenerateSpeech], once [generateSpeech] has settled. *)
Definition handleGenerateSpeech_settled (r : Outcome string) (s : State)
  : State :=
  match r with
  | Returned base64Audio => finally (setSummaryAudio (Some base64Audio) s)
  | Threw err =>
      finally (setError (Some (error_message err "Failed to generate audio.")) s)
  end.

End App.

(** ** [components/Summarizer.tsx]: the playback logic, with the App state
    it is rendered from and the audio nodes of the platform

    React is modelled with batched updates: the state setters called by one
    task of the event loop take effect together, the component is rendered
    once after the task, and the effects whose dependencies changed run
    after that render, reading the state of that render. *)

Module Summarizer.
Import Js GeminiService.
Local Open Scope string_scope.

(** An [AudioBufferSourceNode] that has been started.  The platform
    dispatches [ended] to it once, when it has stopped playing: because its
    buffer ran out or because [stop()] was called on it. *)
Inductive NodeState : Type :=
| Playing    (* started, audible *)
| Stopped    (* halted by stop(); its ended event not yet dispatched *)
| Ended.     (* ended event dispatched *)

Record SourceNode : Type := mkNode {
  node_buffer : AudioBuffer;
  node_state : NodeState;
  node_owner : nat   (* the component instance whose handler is its onended *)
}.

(** The state of one mounted instance of the component: [isPlaying] and
    the two refs.  A source ref is the index of the node among all nodes
    created so far. *)
Record Comp : Type := mkComp {
  isPlaying : bool;
  audioContextRef : option AudioContext;
  audioSourceRef : option nat
}.

Definition comp_initial : Comp := mkComp false None None.

(** A call of [playBuffer] suspended at [await audioContext.resume()]. *)
Record PendingPlay : Type := mkPlay {
  play_owner : nat;
  play_context : AudioContext;
  play_base64 : string
}.

Record World : Type := mkWorld {
  app : App.State;
  awaiting : list App.Suspended;   (* suspended calls of the App handlers *)
  comp : Comp;
  instance : nat;                  (* which mount of the component [comp] is *)
  nodes : list SourceNode;
  plays : list PendingPlay
}.

Definition initial : World :=
  mkWorld App.initial [] comp_initial 0 [] [].

Definition with_app (a : App.State) (w : World) : World :=
  mkWorld a (awaiting w) (comp w) (instance w) (nodes w) (plays w).
Definition with_awaiting (l : list App.Suspended) (w : World) : World :=
  mkWorld (app w) l (comp w) (instance w) (nodes w) (plays w).
Definition with_comp (c : Comp) (w : World) : World :=
  mkWorld (app w) (awaiting w) c (instance w) (nodes w) (plays w).
Definition with_instance (i : nat) (w : World) : World :=
  mkWorld (app w) (awaiting w) (comp w) i (nodes w) (plays w).
Definition with_nodes (l : list SourceNode) (w : World) : World :=
  mkWorld (app w) (awaiting w) (comp w) (instance w) l (plays w).
Definition with_plays (l : list PendingPlay) (w : World) : World :=
  mkWorld (app w) (awaiting w) (comp w) (instance w) (nodes w) l.

Definition setIsPlaying (v : bool) (w : World) : World :=
  with_comp (mkComp v (audioContextRef (comp w)) (audioSourceRef (comp w))) w.
Definition set_audioContextRef (v : option AudioContext) (w : World) : World :=
  with_comp (mkComp (isPlaying (comp w)) v (audioSourceRef (comp w))) w.
Definition set_audioSourceRef (v : option nat) (w : World) : World :=
  with_comp (mkComp (isPlaying (comp w)) (audioContextRef (comp w)) v) w.

Fixpoint update_nth {A} (k : nat) (f : A -> A) (l : list A) : list A :=
  match k, l with
  | _, [] => []
  | O, x :: r => f x :: r
  | S j, x :: r => x :: update_nth j f r
  end.

Fixpoint remove_nth {A} (k : nat) (l : list A) : list A :=
  match k, l with
  | _, [] => []
  | O, _ :: r => r
  | S j, x :: r => x :: remove_nth j r
  end.

Definition list_of_option {A} (o : option A) : list A :=
  match o with
  | Some a => [a]
  | None => []
  end.

(** [source.stop()] on a started node: it stops playing; on a node that
    has already stopped the call has no effect. *)
Definition node_stop (n : SourceNode) : SourceNode :=
  match node_state n with
  | Playing => mkNode (node_buffer n) Stopped (node_owner n)
  | _ => n
  end.

Definition node_end (n : SourceNode) : SourceNode :=
  mkNode (node_buffer n) Ended (node_owner n).

(** [audioSourceRef.current?.stop()] *)
Definition stop_current (w : World) : World :=
  match audioSourceRef (comp w) with
  | Some k => with_nodes (update_nth k node_stop (nodes w)) w
  | None => w
  end.

(** [new AudioContext({ sampleRate: 24000 })] *)
Definition new_AudioContext : AudioContext := mkAudioContext 24000 suspended.

(** [playBuffer], up to [await audioContext.resume()]. *)
Definition playBuffer (base64 : string) (w : World) : World :=
  let audioContext :=
    match audioContextRef (comp w) with
    | Some c => match ctx_state c with
                | closed => new_AudioContext
                | _ => c
                end
    | None => new_AudioContext
    end in
  with_plays (plays w ++ [mkPlay (instance w) audioContext base64])%list
             (set_audioContextRef (Some audioContext) w).

(** [playBuffer], from the resumption of the context on.  A failing
    [decode] or [decodePcmData] rejects the promise of [playBuffer], which
    nothing handles.  The writes of a call that belongs to an instance
    unmounted in the meantime reach no mounted component. *)
Definition playBuffer_resumed (p : PendingPlay) (w : World) : World :=
  let audioContext := mkAudioContext (ctx_sampleRate (play_context p)) running in
  let w := if (play_owner p =? instance w)%nat
           then set_audioContextRef (Some audioContext) w else w in
  match Audio.decode (play_base64 p) with
  | Throw _ => w
  | Ok pcmData =>
      match Audio.decodePcmData pcmData audioContext with
      | Throw _ => w
      | Ok decodedBuffer =>
          let source := List.length (nodes w) in
          let w := with_nodes
                     (nodes w ++ [mkNode decodedBuffer Playing (play_owner p)])%list
                     w in
          if (play_owner p =? instance w)%nat
          then setIsPlaying true (set_audioSourceRef (Some source) w)
          else w
      end
  end.

(** The [onended] handler [playBuffer] installs on every source. *)
Definition onended (owner : nat) (w : World) : World :=
  if (owner =? instance w)%nat
  then set_audioSourceRef None (setIsPlaying false w)
  else w.

(** [onGenerateSpeech()], the prop: [handleGenerateSpeech] of the App. *)
Definition onGenerateSpeech (w : World) : World :=
  let (s, t) := App.handleGenerateSpeech (app w) in
  with_awaiting (awaiting w ++ list_of_option t)%list (with_app s w).

Definition truthy_option (o : option string) : bool :=
  match o with
  | Some s => truthy s
  | None => false
  end.

(** [playSummaryAudio], as created by a render in which [isPlaying] had the
    value [isPlaying_rendered]. *)
Definition playSummaryAudio (isPlaying_rendered : bool) (w : World) : World :=
  if negb (truthy (App.summary (app w))) then w
  else if isPlaying_rendered
  then setIsPlaying false (stop_current w)
  else match App.summaryAudio (app w) with
       | Some summaryAudio =>
           if truthy summaryAudio then playBuffer summaryAudio w
           else onGenerateSpeech w
       | None => onGenerateSpeech w
       end.

(** The cleanup of the effect with no dependencies, run at unmount. *)
Definition unmount_cleanup (w : World) : World := stop_current w.

(** The effect on [[audioFile]]. *)
Definition audioFile_effect (isPlaying_rendered : bool) (w : World) : World :=
  if isPlaying_rendered then setIsPlaying false (stop_current w) else w.

(** The stop of the controller: the block
    [if (isPlaying) { audioSourceRef.current?.stop(); setIsPlaying(false); }]
    of the [audioFile] effect, which is also the first branch of
    [playSummaryAudio], as run by a render that reads the current flag. *)
Definition stop (w : World) : World := audioFile_effect (isPlaying (comp w)) w.

(** The effect on [[summaryAudio, isLoading, loadingStep]]. *)
Definition autoplay_effect (isPlaying_rendered : bool) (w : World) : World :=
  if truthy_option (App.summaryAudio (app w))
     && App.isLoading (app w)
     && (App.loadingStep (app w) =? "")
  then playSummaryAudio isPlaying_rendered w
  else w.

Definition mounted (w : World) : bool :=
  match App.view (app w) with
  | App.summarizer => true
  | App.chatbot => false
  end.

(** Dependencies are compared with [Object.is]: objects by identity,
    strings and booleans by value. *)
Definition same_file (a b : option App.File) : bool :=
  match a, b with
  | Some x, Some y => (App.file_id x =? App.file_id y)%nat
  | None, None => true
  | _, _ => false
  end.

Definition same_string (a b : option string) : bool :=
  match a, b with
  | Some x, Some y => (x =? y)
  | None, None => true
  | _, _ => false
  end.

(** The render that follows a task, and its effects: [rendered] is the App
    state of the previous render. *)
Definition commit (rendered : App.State) (w : World) : World :=
  if mounted w then
    let isPlaying_rendered := isPlaying (comp w) in
    let w :=
      if same_file (App.audioFile rendered) (App.audioFile (app w))
      then w else audioFile_effect isPlaying_rendered w in
    if same_string (App.summaryAudio rendered) (App.summaryAudio (app w))
       && Bool.eqb (App.isLoading rendered) (App.isLoading (app w))
       && (App.loadingStep rendered =? App.loadingStep (app w))
    then w else autoplay_effect isPlaying_rendered w
  else w.

(** [setView(v)]: leaving the summarizer view unmounts the component, whose
    state is lost; returning to it mounts a fresh instance, all of whose
    effects run. *)
Definition selectView (v : App.View) (w : World) : World :=
  match App.view (app w), v with
  | App.summarizer, App.chatbot =>
      with_instance (S (instance w))
        (with_comp comp_initial
           (with_app (App.setView v (app w)) (unmount_cleanup w)))
  | App.chatbot, App.summarizer =>
      autoplay_effect false
        (audioFile_effect false (with_app (App.setView v (app w)) w))
  | _, _ => w
  end.

(** The tasks of the event loop: what the user does, and what the
    environment (the remote API, the audio platform) does. *)
Inductive Event : Type :=
| FileChosen (file : option App.File)     (* the file input changes *)
| ProcessClicked                          (* "Transcribe & Summarize" *)
| PlayClicked                             (* "Play Summary Audio" / "Stop" *)
| DownloadClicked                         (* "Download Audio" *)
| ViewSelected (v : App.View)             (* a navigation button *)
| FileReadFailed (k : nat) (err : Thrown) (* fileToBase64 or getFileMimeType throws *)
| ApiSettled (k : nat) (reply : ApiReply) (* the remote call awaited by call [k] settles *)
| ResumeSettled (k : nat)                 (* audioContext.resume() of play [k] resolves *)
| SourceEnded (k : nat).                  (* the platform dispatches ended to node [k] *)

Definition settle (k : nat) (r : App.State * option App.Suspended) (w : World)
  : World :=
  commit (app w)
    (with_awaiting (remove_nth k (awaiting w) ++ list_of_option (snd r))%list
       (with_app (fst r) w)).

(** One task.  [None]: the event cannot happen in this state (the control
    is not rendered or is disabled, there is no such suspended call or
    node). *)
Definition step (e : Event) (w : World) : option World :=
  match e with
  | FileChosen file =>
      if mounted w && negb (App.isLoading (app w))
      then Some (commit (app w) (with_app (App.handleFileChange file (app w)) w))
      else None
  | ProcessClicked =>
      if mounted w && negb (App.isLoading (app w))
         && match App.audioFile (app w) with Some _ => true | None => false end
      then let r := App.processAudio (app w) in
           Some (commit (app w)
                   (with_awaiting (awaiting w ++ list_of_option (snd r))%list
                      (with_app (fst r) w)))
      else None
  | PlayClicked =>
      if mounted w && truthy (App.summary (app w))
         && negb (App.isLoading (app w)
                  && (App.loadingStep (app w) =? "Generating speech..."))
      then Some (commit (app w) (playSummaryAudio (isPlaying (comp w)) w))
      else None
  | DownloadClicked =>
      if mounted w && truthy (App.summary (app w))
         && truthy_option (App.summaryAudio (app w))
      then Some w
      else None
  | ViewSelected v => Some (selectView v w)
  | FileReadFailed k err =>
      match nth_error (awaiting w) k with
      | Some App.AwaitTranscribe =>
          Some (settle k (App.processAudio_transcribed (Threw err) (app w)) w)
      | _ => None
      end
  | ApiSettled k reply =>
      match nth_error (awaiting w) k with
      | Some App.AwaitTranscribe =>
          Some (settle k (App.processAudio_transcribed (transcribeAudio reply)
                            (app w)) w)
      | Some App.AwaitSummarize =>
          Some (settle k (App.processAudio_summarized (summarizeText reply)
                            (app w), None) w)
      | Some App.AwaitSpeech =>
          Some (settle k (App.handleGenerateSpeech_settled (generateSpeech reply)
                            (app w), None) w)
      | None => None
      end
  | ResumeSettled k =>
      match nth_error (plays w) k with
      | Some p => Some (playBuffer_resumed p (with_plays (remove_nth k (plays w)) w))
      | None => None
      end
  | SourceEnded k =>
      match nth_error (nodes w) k with
      | Some n =>
          match node_state n with
          | Ended => None
          | _ => Some (onended (node_owner n)
                         (with_nodes (update_nth k node_end (nodes w)) w))
          end
      | None => None
      end
  end.

Fixpoint run (trace : list Event) (w : World) : option World :=
  match trace with
  | [] => Some w
  | e :: rest =>
      match step e w with
      | Some w' => run rest w'
      | None => None
      end
  end.

(** The worlds the application can be in. *)
Definition reachable (w : World) : Prop :=
  exists trace, run trace initial = Some w.

(** The sources that are audible. *)
Definition live (w : World) : list SourceNode :=
  filter (fun n => match node_state n with Playing => true | _ => false end)
         (nodes w).

(** What "Download Audio" saves as [summary.wav]; [None] when nothing is
    saved (no audio, or the [catch] branch). *)
Definition handleDownload (w : World) : option Blob :=
  match App.summaryAudio (app w) with
  | Some summaryAudio =>
      if truthy summaryAudio then
        match Audio.decode summaryAudio with
        | Ok pcmData =>
            match Audio.createWavBlob pcmData with
            | Ok wavBlob => Some wavBlob
            | Throw _ => None
            end
        | Throw _ => None
        end
      else None
  | None => None
  end.

End Summarizer.

(** ** The formats, as the specification words them *)

Module Format.
Import Js.

(** Bytes [i] to [j - 1] of a byte sequence. *)
Definition slice (i j : nat) (l : list byte) : list byte :=
  firstn (j - i) (skipn i l).

(** The 44-byte header the specification lists field by field, for a
    payload of [N] bytes: every number little-endian, of the width of its
    field. *)
Definition wav_header (N : nat) : list byte :=
  (list_byte_of_string "RIFF"
   ++ bytes_le 4 (36 + Z.of_nat N)     (* file size minus 8 *)
   ++ list_byte_of_string "WAVE"
   ++ list_byte_of_string "fmt "
   ++ bytes_le 4 16                    (* length of the format sub-chunk *)
   ++ bytes_le 2 1                     (* PCM format tag *)
   ++ bytes_le 2 1                     (* channel count *)
   ++ bytes_le 4 24000                 (* sample rate *)
   ++ bytes_le 4 48000                 (* byte rate *)
   ++ bytes_le 2 2                     (* block align *)
   ++ bytes_le 2 16                    (* bits per sample *)
   ++ list_byte_of_string "data"
   ++ bytes_le 4 (Z.of_nat N))%list.   (* data size *)

(** A window that lies inside its buffer, as every [Uint8Array] does. *)
Definition u8_wf (arr : Uint8Array) : Prop :=
  (byteOffset arr + length arr <= List.length (buffer arr))%nat.

(** The 16-bit samples of a byte sequence, low byte first. *)
Fixpoint samples_le (pcm : list byte) : list Z :=
  match pcm with
  | lo :: hi :: rest => int16_le lo hi :: samples_le rest
  | _ => []
  end.

(** A value binary32 represents exactly: [m * 2^e] with a 24-bit
    significand and an exponent in the range of the format. *)
Definition binary32_value (q : Q) : Prop :=
  exists m e : Z,
    (Z.abs m < 2 ^ 24)%Z /\ (-149 <= e <= 104)%Z
    /\ Qeq q (inject_Z m * Qpower 2 e).

End Format.

(** ** [components/Chatbot.tsx]: the conversation *)

Module Chatbot.
Import Js GeminiService.
Local Open Scope string_scope.

Inductive Role : Type := user | model.

Record ChatMessage : Type := mkMessage {
  role : Role;
  text : string
}.

(** The [Chat] object of the SDK, as far as the component is concerned:
    the system instruction it was created with. *)
Record Chat : Type := mkChat {
  systemInstruction : string
}.

Record State : Type := mkState {
  transcription : string;          (* props *)
  summary : string;
  chat : option Chat;
  messages : list ChatMessage;
  input : string;
  isLoading : bool;
  error : option string;
  sending : list string            (* suspended calls of handleSend *)
}.

(** Code units that [String.prototype.trim] removes, among those of one
    byte: tab, line feed, vertical tab, form feed, carriage return, space
    and no-break space. *)
Definition is_trimmed (c : ascii) : bool :=
  let n := N_of_ascii c in
  ((n =? 9) || (n =? 10) || (n =? 11) || (n =? 12) || (n =? 13)
   || (n =? 32) || (n =? 160))%N.

(** [!input.trim()] *)
Definition blank (s : string) : bool :=
  forallb is_trimmed (list_ascii_of_string s).

Definition has_chat (s : State) : bool :=
  match chat s with
  | Some _ => true
  | None => false
  end.

(** [initChat], the body of the effect on [[transcription, summary]];
    [ok] tells whether the SDK calls of its [try] block return. *)
Definition initChat (ok : bool) (s : State) : State :=
  if ok then
    let context := truthy (transcription s) && truthy (summary s) in
    let systemInstruction :=
      if context then
        "You are an expert assistant with the context of an audio file that has been transcribed and summarized.
    
Here is the full transcription for your reference:
--- TRANSCRIPTION START ---
" ++ transcription s ++ "
--- TRANSCRIPTION END ---

Here is the concise summary of the transcription:
--- SUMMARY START ---
" ++ summary s ++ "
--- SUMMARY END ---

Your primary role is to answer user questions based on the provided transcription and summary. Be thorough and refer to the context. If a user asks a question unrelated to the context, you may answer it, but always acknowledge your primary role related to the audio file."
      else "You are a helpful Q&A assistant." in
    let initialMessage :=
      if context then
        "I have the context of your audio file. Feel free to ask me any questions about its content!"
      else
        "Hello! How can I help you today? You can ask me questions about a summarized audio file if you have processed one." in
    mkState (transcription s) (summary s)
            (Some (mkChat systemInstruction))
            [mkMessage model initialMessage]
            (input s) (isLoading s) (error s) (sending s)
  else
    mkState (transcription s) (summary s) (chat s) (messages s)
            (input s) (isLoading s)
            (Some "Failed to initialize the chatbot. Please check the API key.")
            (sending s).

(** The component as mounted with the props [t] and [s]. *)
Definition mount (t s : string) (ok : bool) : State :=
  initChat ok (mkState t s None [] "" false None []).

(** [handleSend], up to [await chat.sendMessage]. *)
Definition handleSend (s : State) : State :=
  if blank (input s) || isLoading s || negb (has_chat s) then s
  else mkState (transcription s) (summary s) (chat s)
               (messages s ++ [mkMessage user (input s)])
               "" true None
               (sending s ++ [input s]).

(** [handleSend], once [sendMessage] has settled; the updates of the
    messages are functional, applied to the messages of that moment. *)
Definition handleSend_settled (r : Outcome string) (s : State) : State :=
  match r with
  | Returned responseText =>
      mkState (transcription s) (summary s) (chat s)
              (messages s ++ [mkMessage model responseText])
              (input s) false (error s) (sending s)
  | Threw e =>
      let errorMessage :=
        match e with
        | ErrorObject message => message
        | NotAnError => "An unknown error occurred."
        end in
      mkState (transcription s) (summary s) (chat s)
              (removelast (messages s))
              (input s) false
              (Some ("Failed to get response: " ++ errorMessage))
              (sending s)
  end.

Inductive Event : Type :=
| InputChanged (v : string)                 (* typing in the input *)
| SendRequested                             (* the button, or Enter *)
| SendSettled (k : nat) (r : Outcome string)
| PropsChanged (t s : string) (ok : bool).  (* the App renders with these *)

Fixpoint remove_nth {A} (k : nat) (l : list A) : list A :=
  match k, l with
  | _, [] => []
  | O, _ :: r => r
  | S j, x :: r => x :: remove_nth j r
  end.

Definition step (e : Event) (s : State) : option State :=
  match e with
  | InputChanged v =>
      if isLoading s || negb (has_chat s) then None
      else Some (mkState (transcription s) (summary s) (chat s) (messages s)
                         v (isLoading s) (error s) (sending s))
  | SendRequested =>
      if isLoading s || negb (has_chat s) then None
      else Some (handleSend s)
  | SendSettled k r =>
      match nth_error (sending s) k with
      | Some _ =>
          Some (handleSend_settled r
                  (mkState (transcription s) (summary s) (chat s) (messages s)
                           (input s) (isLoading s) (error s)
                           (remove_nth k (sending s))))
      | None => None
      end
  | PropsChanged t u ok =>
      if (t =? transcription s) && (u =? summary s)
      then Some s
      else Some (initChat ok
                   (mkState t u (chat s) (messages s) (input s) (isLoading s)
                            (error s) (sending s)))
  end.

Fixpoint run (trace : list Event) (s : State) : option State :=
  match trace with
  | [] => Some s
  | e :: rest =>
      match step e s with
      | Some s' => run rest s'
      | None => None
      end
  end.

Definition reachable (s : State) : Prop :=
  exists t u ok trace, run trace (mount t u ok) = Some s.

End Chatbot.

(** ** Measures used in the statements on [decode] *)

Module Measure.
Import Js.

(** The characters of a base64 string that carry data: what is left once
    the whitespace is dropped and, for a length that is a multiple of four,
    the one or two padding characters at the end. *)
Definition significant (data : string) : list ascii :=
  let d := filter (fun c => negb (is_ascii_whitespace c))
                  (list_ascii_of_string data) in
  if (List.length d mod 4 =? 0)%nat then strip_padding d else d.

End Measure.

(** ** Invariants of the reachable worlds *)

Module Invariant.
Import Js Summarizer.
Local Open Scope string_scope.

(** The source ref and the playing flag agree with the nodes: a referenced
    node exists, belongs to the mounted instance, and is audible exactly
    when the flag is set; without a reference the flag is clear. *)
Definition consistent (w : World) : Prop :=
  match audioSourceRef (comp w) with
  | Some k =>
      exists n, nth_error (nodes w) k = Some n
                /\ node_owner n = instance w
                /\ (node_state n = Playing <-> isPlaying (comp w) = true)
  | None => isPlaying (comp w) = false
  end.

(** The App runs at most one of its asynchronous handlers at a time, and
    its loading flag, loading step and results say which: nothing awaited
    and not loading; a transcription or a summary awaited, with the old
    results cleared; or a speech generation awaited for the summary shown.
    Generated audio is never empty and never outlives its summary. *)
Definition one_at_a_time (w : World) : Prop :=
  match awaiting w with
  | [] => App.isLoading (app w) = false /\ App.loadingStep (app w) = ""
  | [App.AwaitTranscribe] =>
      App.isLoading (app w) = true
      /\ App.loadingStep (app w) = "Transcribing audio..."
      /\ App.summary (app w) = "" /\ App.summaryAudio (app w) = None
  | [App.AwaitSummarize] =>
      App.isLoading (app w) = true
      /\ App.loadingStep (app w) = "Summarizing text..."
      /\ App.summary (app w) = "" /\ App.summaryAudio (app w) = None
  | [App.AwaitSpeech] =>
      App.isLoading (app w) = true
      /\ App.loadingStep (app w) = "Generating speech..."
      /\ truthy (App.summary (app w)) = true
  | _ => False
  end
  /\ forall a, App.summaryAudio (app w) = Some a ->
               truthy a = true /\ truthy (App.summary (app w)) = true.

(** While the App is loading, its loading step has a label. *)
Definition labelled (s : App.State) : Prop :=
  App.isLoading s = true -> App.loadingStep s <> "".

End Invariant.

(** ** Failed attempts, and the traces used as examples *)

Module Scenario.
Import Js GeminiService Summarizer.
Local Open Scope string_scope.

(** The decoding [playBuffer] does once the context has resumed. *)
Definition decoded (base64 : string) : Result AudioBuffer :=
  (pcmData <- Audio.decode base64 ;;
   Audio.decodePcmData pcmData (mkAudioContext 24000 running))%js.

(** In world [w], event [e] is the failure of a speech generation (the
    awaited [generateSpeech] throws), of a playback (the [decode] or the
    [decodePcmData] of a resumed [playBuffer] throws) or of a download
    (the [try] block of [handleDownload] throws). *)
Definition speech_fails (e : Event) (w : World) : Prop :=
  exists k reply err,
    e = ApiSettled k reply
    /\ nth_error (awaiting w) k = Some App.AwaitSpeech
    /\ generateSpeech reply = Threw err.

Definition playback_fails (e : Event) (w : World) : Prop :=
  exists k p err,
    e = ResumeSettled k
    /\ nth_error (plays w) k = Some p
    /\ decoded (play_base64 p) = Throw err.

Definition download_fails (e : Event) (w : World) : Prop :=
  e = DownloadClicked /\ handleDownload w = None.

Definition failed_attempt (e : Event) (w : World) : Prop :=
  speech_fails e w \/ playback_fails e w \/ download_fails e w.

(** A file is chosen, transcribed and summarized, and speech is generated
    for the summary: the audio ["AAAB/w=="] is ready to be played. *)
Definition ready_trace : list Event :=
  [FileChosen (Some (App.mkFile 0 "audio/mpeg"));
   ProcessClicked;
   ApiSettled 0 (Responds "transcribed text" None);
   ApiSettled 0 (Responds "summary text" None);
   PlayClicked;
   ApiSettled 0 (Responds "" (Some "AAAB/w=="))].

(** The world a trace leads to from the initial one. *)
Definition world_after (trace : list Event) : World :=
  match run trace initial with
  | Some w => w
  | None => initial
  end.

(** The same, with speech generation still awaited. *)
Definition generating_trace : list Event :=
  [FileChosen (Some (App.mkFile 0 "audio/mpeg"));
   ProcessClicked;
   ApiSettled 0 (Responds "transcribed text" None);
   ApiSettled 0 (Responds "summary text" None);
   PlayClicked].

End Scenario.

(** * Properties *)

(** ** Bytes *)

Section Bytes.
Import Js.

Lemma ToUint8_byte_to_Z (b : byte) : ToUint8 (byte_to_Z b) = b.
Proof. destruct b; reflexivity. Qed.

Lemma byte_to_Z_range (b : byte) : (0 <= byte_to_Z b < 256)%Z.
Proof.
  unfold byte_to_Z. pose proof (Byte.to_N_bounded b) as H. lia.
Qed.

Lemma byte_to_Z_ToUint8 (v : Z) : byte_to_Z (ToUint8 v) = (v mod 256)%Z.
Proof.
  unfold ToUint8, byte_to_Z.
  assert (Hr : (0 <= v mod 256 < 256)%Z) by (apply Z.mod_pos_bound; lia).
  destruct (Byte.of_N (Z.to_N (v mod 256))) as [b|] eqn:E.
  - apply Byte.to_of_N in E. rewrite E. lia.
  - apply Byte.of_N_None_iff in E. lia.
Qed.

Lemma ToUint8_mod (v : Z) : ToUint8 (v mod 256) = ToUint8 v.
Proof. unfold ToUint8. rewrite Z.mod_mod by lia. reflexivity. Qed.

Lemma ToUint8_small (v : Z) (b : byte) : byte_to_Z b = (v mod 256)%Z -> ToUint8 v = b.
Proof.
  intros H. rewrite <- ToUint8_mod, <- H. apply ToUint8_byte_to_Z.
Qed.

End Bytes.

(** ** The WAV writer *)

Section Wav.
Import Js Audio Format.

Lemma uint_le_bytes_le (n : nat) (v : Z) :
  uint_le (bytes_le n v) = (v mod 256 ^ Z.of_nat n)%Z.
Proof.
  revert v. induction n as [|n IH]; intros v.
  - cbn. now rewrite Z.mod_1_r.
  - cbn [bytes_le uint_le]. rewrite byte_to_Z_ToUint8, IH.
    rewrite Nat2Z.inj_succ, Z.pow_succ_r by lia.
    rewrite Z.rem_mul_r by lia. reflexivity.
Qed.

Lemma bytes_le_length (n : nat) (v : Z) : List.length (bytes_le n v) = n.
Proof. revert v. induction n; intros; cbn; auto. Qed.

Lemma bytes_le_congr (n : nat) (u v : Z) :
  (u mod 256 ^ Z.of_nat n = v mod 256 ^ Z.of_nat n)%Z ->
  bytes_le n u = bytes_le n v.
Proof.
  revert u v. induction n as [|n IH]; intros u v H; [reflexivity|].
  rewrite Nat2Z.inj_succ, Z.pow_succ_r in H by lia.
  assert (P : (0 < 256 ^ Z.of_nat n)%Z) by (apply Z.pow_pos_nonneg; lia).
  rewrite !Z.rem_mul_r in H by lia.
  pose proof (Z.mod_pos_bound u 256 ltac:(lia)).
  pose proof (Z.mod_pos_bound v 256 ltac:(lia)).
  cbn [bytes_le]. f_equal.
  - rewrite <- (ToUint8_mod u), <- (ToUint8_mod v). f_equal. lia.
  - apply IH. lia.
Qed.

Lemma bytes_le_ToUint32 (v : Z) : bytes_le 4 (ToUint32 v) = bytes_le 4 v.
Proof. apply bytes_le_congr. unfold ToUint32. now rewrite Z.mod_mod. Qed.

Lemma bytes_le_ToUint16 (v : Z) : bytes_le 2 (ToUint16 v) = bytes_le 2 v.
Proof. apply bytes_le_congr. unfold ToUint16. now rewrite Z.mod_mod. Qed.

Lemma write_at_app (pre bs post : list byte) :
  write_at (List.length pre) bs (pre ++ post) = (pre ++ overwrite bs post)%list.
Proof. induction pre as [|x pre IH]; cbn; [reflexivity | now rewrite IH]. Qed.

Lemma u8_get_elements (arr : Uint8Array) (i : nat) :
  u8_get arr i = option_map byte_to_Z (nth_error (u8_elements arr) i).
Proof.
  unfold u8_get, u8_elements.
  rewrite nth_error_firstn, nth_error_skipn.
  destruct (i <? length arr)%nat; reflexivity.
Qed.

Lemma u8_elements_length (arr : Uint8Array) :
  u8_wf arr -> List.length (u8_elements arr) = length arr.
Proof.
  unfold u8_wf, u8_elements. intros H.
  rewrite firstn_length_le; [reflexivity|]. rewrite length_skipn. lia.
Qed.

Lemma u8_elements_of (bs : list byte) : u8_elements (Uint8Array_of bs) = bs.
Proof. unfold u8_elements, Uint8Array_of. cbn. apply firstn_all. Qed.

Lemma u8_wf_of (bs : list byte) : u8_wf (Uint8Array_of bs).
Proof. unfold u8_wf, Uint8Array_of. cbn. lia. Qed.

(** The copy loop of [createWavBlob], started at element [length done]
    with [done] already in place. *)
Lemma copy_loop (arr : Uint8Array) (off : nat) (hdr : list byte) :
  off = List.length hdr ->
  forall todo done,
    u8_elements arr = (done ++ todo)%list ->
    dv_for (List.length todo) (List.length done)
      (fun i => setUint8 (off + i) (number_of (u8_get arr i)))
      (hdr ++ done ++ repeat x00 (List.length todo))%list
    = Ok (tt, (hdr ++ done ++ todo)%list).
Proof.
  intros ->. induction todo as [|b todo IH]; intros done E.
  - reflexivity.
  - cbn [List.length dv_for repeat]. unfold dv_bind at 1.
    unfold setUint8, dv_store.
    rewrite u8_get_elements, E, nth_error_app2, Nat.sub_diag by lia.
    cbn [nth_error option_map number_of]. rewrite ToUint8_byte_to_Z.
    replace (List.length hdr + List.length done)%nat
      with (List.length (hdr ++ done)%list) by apply length_app.
    rewrite (app_assoc hdr done), write_at_app.
    rewrite !length_app. cbn [List.length overwrite].
    destruct (Nat.leb_spec
                (List.length hdr + List.length done + 1)
                (List.length hdr + List.length done
                 + S (List.length (repeat x00 (List.length todo))))) as [_|H];
      [|lia].
    specialize (IH (done ++ [b])%list).
    rewrite length_app, Nat.add_1_r in IH. cbn [List.length] in IH.
    rewrite <- !app_assoc in IH. cbn [app] in IH.
    rewrite <- app_assoc. apply IH. exact E.
Qed.

(** The thirteen header writes of [createWavBlob], run on a zeroed buffer
    of at least 44 bytes, followed by any further view computation. *)
Lemma header_writes (N : nat) (k : DataView unit) (tail : list byte) :
  (writeString 0 "RIFF" ;;
   setUint32 4 (36 + Z.of_nat N) true ;;
   writeString 8 "WAVE" ;;
   writeString 12 "fmt " ;;
   setUint32 16 16 true ;;
   setUint16 20 1 true ;;
   setUint16 22 1 true ;;
   setUint32 24 24000 true ;;
   setUint32 28 (24000 * ((1 * 16) / 8)) true ;;
   setUint16 32 ((1 * 16) / 8) true ;;
   setUint16 34 16 true ;;
   writeString 36 "data" ;;
   setUint32 40 (Z.of_nat N) true ;;
   k)%view (repeat x00 44 ++ tail)%list
  = k (wav_header N ++ tail)%list.
Proof.
  unfold setUint32, setUint16, wav_header.
  rewrite !bytes_le_ToUint32, !bytes_le_ToUint16.
  cbn [bytes_le endian].
  generalize (ToUint8 (36 + Z.of_nat N))
             (ToUint8 ((36 + Z.of_nat N) / 256))
             (ToUint8 ((36 + Z.of_nat N) / 256 / 256))
             (ToUint8 ((36 + Z.of_nat N) / 256 / 256 / 256))
             (ToUint8 (Z.of_nat N))
             (ToUint8 (Z.of_nat N / 256))
             (ToUint8 (Z.of_nat N / 256 / 256))
             (ToUint8 (Z.of_nat N / 256 / 256 / 256)).
  intros s0 s1 s2 s3 d0 d1 d2 d3. cbn. reflexivity.
Qed.

Lemma wav_header_length (N : nat) : List.length (wav_header N) = 44.
Proof. reflexivity. Qed.

(** What [createWavBlob] computes, for any array. *)
Lemma createWavBlob_eq (arr : Uint8Array) :
  u8_wf arr ->
  createWavBlob arr
  = Ok (mkBlob (wav_header (length arr) ++ u8_elements arr) "audio/wav").
Proof.
  intros Hwf. unfold createWavBlob. cbv zeta.
  unfold new_ArrayBuffer. rewrite repeat_app, header_writes.
  pose proof (copy_loop arr 44 (wav_header (length arr))
                eq_refl (u8_elements arr) [] eq_refl) as L.
  rewrite (u8_elements_length arr Hwf) in L. cbn [List.length app] in L.
  rewrite L. reflexivity.
Qed.

Lemma wav_header_fields (N : nat) (pcm : list byte) :
  let out := (wav_header N ++ pcm)%list in
  slice 0 4 out = list_byte_of_string "RIFF"
  /\ slice 4 8 out = bytes_le 4 (36 + Z.of_nat N)
  /\ slice 8 12 out = list_byte_of_string "WAVE"
  /\ slice 12 16 out = list_byte_of_string "fmt "
  /\ slice 16 20 out = bytes_le 4 16
  /\ slice 20 22 out = bytes_le 2 1
  /\ slice 22 24 out = bytes_le 2 1
  /\ slice 24 28 out = bytes_le 4 24000
  /\ slice 28 32 out = bytes_le 4 48000
  /\ slice 32 34 out = bytes_le 2 2
  /\ slice 34 36 out = bytes_le 2 16
  /\ slice 36 40 out = list_byte_of_string "data"
  /\ slice 40 44 out = bytes_le 4 (Z.of_nat N)
  /\ skipn 44 out = pcm.
Proof.
  unfold wav_header. cbn [bytes_le].
  generalize (ToUint8 (36 + Z.of_nat N))
             (ToUint8 ((36 + Z.of_nat N) / 256))
             (ToUint8 ((36 + Z.of_nat N) / 256 / 256))
             (ToUint8 ((36 + Z.of_nat N) / 256 / 256 / 256))
             (ToUint8 (Z.of_nat N))
             (ToUint8 (Z.of_nat N / 256))
             (ToUint8 (Z.of_nat N / 256 / 256))
             (ToUint8 (Z.of_nat N / 256 / 256 / 256)).
  intros s0 s1 s2 s3 d0 d1 d2 d3. cbn. repeat split; reflexivity.
Qed.

(** C1. For every byte sequence [pcm] of length [N], [createWavBlob]
    returns a blob of exactly [44 + N] bytes: ["RIFF"], then [36 + N] as
    four little-endian bytes, ["WAVE"], ["fmt "], [16], [1], [1], [24000],
    [48000], [2], [16] in fields of 4, 2, 2, 4, 4, 2 and 2 bytes, ["data"],
    [N] as four little-endian bytes, and from byte 44 on [pcm] itself.  The
    two size fields hold the four low-order bytes of their value, so they
    read back as [36 + N] and [N] whenever [36 + N] fits the 32-bit field.
    The blob is a function of the bytes alone: whichever buffer and offset
    the array sees them through, the result is the same. *)
Theorem createWavBlob_layout (pcm : list byte) :
  let N := List.length pcm in
  exists out : list byte,
    createWavBlob (Uint8Array_of pcm) = Ok (mkBlob out "audio/wav")
    /\ List.length out = (44 + N)%nat
    /\ (slice 0 4 out = list_byte_of_string "RIFF"
        /\ slice 4 8 out = bytes_le 4 (36 + Z.of_nat N)
        /\ slice 8 12 out = list_byte_of_string "WAVE"
        /\ slice 12 16 out = list_byte_of_string "fmt "
        /\ slice 16 20 out = bytes_le 4 16
        /\ slice 20 22 out = bytes_le 2 1
        /\ slice 22 24 out = bytes_le 2 1
        /\ slice 24 28 out = bytes_le 4 24000
        /\ slice 28 32 out = bytes_le 4 48000
        /\ slice 32 34 out = bytes_le 2 2
        /\ slice 34 36 out = bytes_le 2 16
        /\ slice 36 40 out = list_byte_of_string "data"
        /\ slice 40 44 out = bytes_le 4 (Z.of_nat N)
        /\ skipn 44 out = pcm)
    /\ ((36 + Z.of_nat N < 2 ^ 32)%Z ->
        uint_le (slice 4 8 out) = (36 + Z.of_nat N)%Z
        /\ uint_le (slice 40 44 out) = Z.of_nat N)
    /\ (forall arr : Uint8Array,
          u8_wf arr -> u8_elements arr = pcm ->
          createWavBlob arr = createWavBlob (Uint8Array_of pcm)).
Proof.
  intros N. exists (wav_header N ++ pcm)%list.
  assert (E : createWavBlob (Uint8Array_of pcm)
              = Ok (mkBlob (wav_header N ++ pcm) "audio/wav")).
  { rewrite createWavBlob_eq by apply u8_wf_of.
    now rewrite u8_elements_of. }
  pose proof (wav_header_fields N pcm) as F. cbv zeta in F.
  split; [exact E|]. split; [|split; [exact F|split]].
  - now rewrite length_app, wav_header_length.
  - intros Hfit.
    destruct F as (_ & F4 & _ & _ & _ & _ & _ & _ & _ & _ & _ & _ & F40 & _).
    rewrite F4, F40, !uint_le_bytes_le.
    change (256 ^ Z.of_nat 4)%Z with (2 ^ 32)%Z.
    split; apply Z.mod_small; lia.
  - intros arr Hwf Harr. rewrite E, createWavBlob_eq by exact Hwf.
    assert (L : length arr = N).
    { rewrite <- (u8_elements_length arr Hwf), Harr. reflexivity. }
    now rewrite L, Harr.
Qed.

(** The layout at a four-byte payload: 48 bytes, size fields 40 and 4. *)
Lemma createWavBlob_layout_witness :
  exists out : list byte,
    createWavBlob (Uint8Array_of [x00; x00; x01; xff])
    = Ok (mkBlob out "audio/wav")
    /\ List.length out = 48%nat
    /\ uint_le (slice 4 8 out) = 40%Z
    /\ uint_le (slice 40 44 out) = 4%Z.
Proof.
  destruct (createWavBlob_layout [x00; x00; x01; xff])
    as (out & E & L & _ & R & _).
  exists out. split; [exact E|]. split; [exact L|].
  apply R. cbn. lia.
Defined.

(** Past the range of the field the stored size wraps: a payload of
    [2^32 - 36] bytes gets a RIFF size field of zero. *)
Remark createWavBlob_size_field_wraps (pcm : list byte) :
  (Z.of_nat (List.length pcm) = 2 ^ 32 - 36)%Z ->
  exists out : list byte,
    createWavBlob (Uint8Array_of pcm) = Ok (mkBlob out "audio/wav")
    /\ uint_le (slice 4 8 out) = 0%Z.
Proof.
  intros HN. exists (wav_header (List.length pcm) ++ pcm)%list. split.
  - rewrite createWavBlob_eq by apply u8_wf_of. now rewrite u8_elements_of.
  - destruct (wav_header_fields (List.length pcm) pcm) as (_ & F4 & _).
    rewrite F4, uint_le_bytes_le, HN. reflexivity.
Qed.

End Wav.

(** ** The PCM decoder *)

Section Pcm.
Import Js Audio Format.

Lemma list_ind2 (A : Type) (P : list A -> Prop) :
  P [] -> (forall a, P [a]) ->
  (forall a b l, P l -> P (a :: b :: l)) ->
  forall l, P l.
Proof.
  intros H0 H1 H2.
  assert (H : forall l, P l /\ forall a, P (a :: l)).
  { induction l as [|x l [IH1 IH2]]; split; auto. }
  intros l. apply H.
Qed.

Lemma half_SS (n : nat) : (S (S n) / 2 = S (n / 2))%nat.
Proof.
  change (S (S n)) with (1 * 2 + n)%nat. now rewrite Nat.div_add_l.
Qed.

Lemma mod2_SS (n : nat) : (S (S n) mod 2 = n mod 2)%nat.
Proof.
  change (S (S n)) with (1 * 2 + n)%nat.
  rewrite Nat.add_comm. now rewrite Nat.Div0.mod_add.
Qed.

Lemma samples_le_length (pcm : list byte) :
  List.length (samples_le pcm) = (List.length pcm / 2)%nat.
Proof.
  induction pcm as [| a | a b l IH] using list_ind2; try reflexivity.
  cbn [samples_le List.length]. now rewrite half_SS, IH.
Qed.

(** Element [i] of the [Int16Array] over [pcm] is sample [i]. *)
Lemma i16_get_samples (pcm : list byte) (i : nat) :
  i16_get (mkInt16Array pcm (List.length pcm / 2)) i
  = nth_error (samples_le pcm) i.
Proof.
  revert i. induction pcm as [| a | a b l IH] using list_ind2; intros i.
  - now destruct i.
  - now destruct i.
  - unfold i16_get in *. cbn [i16_buffer i16_length] in *.
    cbn [List.length]. rewrite half_SS.
    destruct i as [|i].
    + reflexivity.
    + specialize (IH i).
      replace (2 * S i)%nat with (S (S (2 * i))) by lia.
      replace (S (S (2 * i)) + 1)%nat with (S (S (2 * i + 1))) by lia.
      cbn [nth_error samples_le].
      change (S i <? S (List.length l / 2))%nat
        with (i <? List.length l / 2)%nat.
      exact IH.
Qed.

Lemma list_set_app {A} (pre : list A) (n : nat) (x v : A) (post : list A) :
  n = List.length pre ->
  list_set n v (pre ++ x :: post) = (pre ++ v :: post)%list.
Proof.
  intros ->. induction pre as [|y pre IH]; cbn; [reflexivity | now rewrite IH].
Qed.

Lemma channel_set_single (len : nat) (rate : Z) (data : list Float32)
      (i : nat) (v : Float32) :
  channel_set (mkAudioBuffer 1 len rate [data]) 0 i v
  = mkAudioBuffer 1 len rate [list_set i v data].
Proof. reflexivity. Qed.

(** The sample loop of [decodePcmData] on its single channel, started at
    frame [length done] with [done] already stored. *)
Lemma sample_loop (a : Int16Array) (len : nat) (rate : Z) :
  forall (todo done : list Z),
    (forall i, (i < List.length (done ++ todo))%nat ->
               i16_get a i = nth_error (done ++ todo) i) ->
    for_loop (List.length todo) (List.length done)
      (fun i buffer =>
         channel_set buffer 0 i (div_32768 (i16_get a (i * 1 + 0))))
      (mkAudioBuffer 1 len rate
         [map (fun s => Num (Qred (s # 32768))) done
          ++ repeat (Num 0) (List.length todo)]%list)
    = mkAudioBuffer 1 len rate
        [map (fun s => Num (Qred (s # 32768))) (done ++ todo)].
Proof.
  induction todo as [|s todo IH]; intros done H.
  - cbn. now rewrite !app_nil_r.
  - assert (E : (done ++ s :: todo = (done ++ [s]) ++ todo)%list)
      by now rewrite <- app_assoc.
    cbn [List.length for_loop repeat].
    rewrite channel_set_single.
    rewrite Nat.mul_1_r, Nat.add_0_r, H
      by (rewrite length_app; cbn; lia).
    rewrite nth_error_app2, Nat.sub_diag by lia.
    cbn [nth_error div_32768].
    rewrite list_set_app by now rewrite length_map.
    rewrite E in *. rewrite <- IH by exact H.
    rewrite length_app, Nat.add_1_r, map_app, <- app_assoc. reflexivity.
Qed.

(** What [decodePcmData] computes on an even, non-empty byte sequence. *)
Lemma decodePcmData_eq (pcm : list byte) (ctx : AudioContext) :
  (List.length pcm mod 2 = 0)%nat -> (2 <= List.length pcm)%nat ->
  decodePcmData (Uint8Array_of pcm) ctx
  = Ok (mkAudioBuffer 1 (List.length pcm / 2) 24000
          [map (fun s => Num (Qred (s # 32768))) (samples_le pcm)]).
Proof.
  intros Heven Hlen. unfold decodePcmData, Uint8Array_of, new_Int16Array.
  cbn [buffer]. rewrite Heven. cbn [Nat.eqb bind i16_length].
  rewrite Nat.div_1_r. unfold createBuffer.
  assert (Hfc : (1 <= List.length pcm / 2)%nat).
  { destruct pcm as [|a [|b l]]; cbn [List.length] in *; try lia.
    rewrite half_SS. lia. }
  apply Nat.leb_le in Hfc. rewrite Hfc. cbn [Nat.leb andb Z.leb Z.compare
    Pos.compare Pos.compare_cont bind repeat for_loop].
  pose proof (sample_loop (mkInt16Array pcm (List.length pcm / 2))
                (List.length pcm / 2) 24000 (samples_le pcm) []) as L.
  cbn [List.length app map] in L. rewrite samples_le_length in L.
  apply f_equal, L. intros i _. apply i16_get_samples.
Qed.

Lemma samples_le_nth (pcm : list byte) (i : nat) (lo hi : byte) :
  nth_error pcm (2 * i) = Some lo -> nth_error pcm (2 * i + 1) = Some hi ->
  nth_error (samples_le pcm) i = Some (int16_le lo hi).
Proof.
  intros Hlo Hhi. rewrite <- i16_get_samples. unfold i16_get.
  cbn [i16_length i16_buffer]. rewrite Hlo, Hhi.
  assert (Hi : (2 * i + 1 < List.length pcm)%nat).
  { apply nth_error_Some. now rewrite Hhi. }
  assert (Hlt : (i < List.length pcm / 2)%nat).
  { apply Nat.div_le_lower_bound; lia. }
  apply Nat.ltb_lt in Hlt. now rewrite Hlt.
Qed.

Lemma int16_le_range (lo hi : byte) : (-32768 <= int16_le lo hi <= 32767)%Z.
Proof.
  unfold int16_le.
  pose proof (byte_to_Z_range lo). pose proof (byte_to_Z_range hi).
  destruct (Z.ltb_spec (byte_to_Z lo + 256 * byte_to_Z hi) 32768); lia.
Qed.

(** C2, as the code has it.  For every byte sequence [pcm] of even length
    [N >= 2], [decodePcmData] returns a buffer of 1 channel, rate 24000 and
    [N / 2] frames, frame [i] being the signed little-endian 16-bit integer
    of bytes [2i] and [2i+1] divided by 32768; bytes [00 80] give exactly
    [-1] and bytes [FF 7F] give exactly [32767/32768]. *)
Theorem decodePcmData_frames (pcm : list byte) (ctx : AudioContext) :
  (List.length pcm mod 2 = 0)%nat -> (2 <= List.length pcm)%nat ->
  exists data : list Float32,
    decodePcmData (Uint8Array_of pcm) ctx
    = Ok (mkAudioBuffer 1 (List.length pcm / 2) 24000 [data])
    /\ List.length data = (List.length pcm / 2)%nat
    /\ (forall i lo hi,
          nth_error pcm (2 * i) = Some lo ->
          nth_error pcm (2 * i + 1) = Some hi ->
          nth_error data i = Some (Num (Qred (int16_le lo hi # 32768))))
    /\ decodePcmData (Uint8Array_of [x00; x80]) ctx
       = Ok (mkAudioBuffer 1 1 24000 [[Num (-1)]])
    /\ decodePcmData (Uint8Array_of [xff; x7f]) ctx
       = Ok (mkAudioBuffer 1 1 24000 [[Num (32767 # 32768)]]).
Proof.
  intros Heven Hlen.
  exists (map (fun s => Num (Qred (s # 32768))) (samples_le pcm)).
  split; [now apply decodePcmData_eq|].
  split; [now rewrite length_map, samples_le_length|].
  split; [|split; reflexivity].
  intros i lo hi Hlo Hhi.
  now rewrite nth_error_map, (samples_le_nth pcm i lo hi Hlo Hhi).
Qed.

(** The decoder on the four bytes [00 80 FF 7F]: two frames, the two
    extreme samples. *)
Lemma decodePcmData_frames_witness :
  exists data : list Float32,
    decodePcmData (Uint8Array_of [x00; x80; xff; x7f])
                  (mkAudioContext 24000 running)
    = Ok (mkAudioBuffer 1 2 24000 [data])
    /\ nth_error data 0 = Some (Num (-1))
    /\ nth_error data 1 = Some (Num (32767 # 32768)).
Proof.
  destruct (decodePcmData_frames [x00; x80; xff; x7f]
              (mkAudioContext 24000 running) eq_refl)
    as (data & E & _ & F & _).
  - cbn. lia.
  - exists data. split; [exact E|]. split.
    + exact (F 0%nat x00 x80 eq_refl eq_refl).
    + exact (F 1%nat xff x7f eq_refl eq_refl).
Defined.

(** C2 fails on the empty sequence, whose length 0 is even: the audio
    context refuses a buffer of zero frames and the decoder returns no
    buffer. *)
Lemma decodePcmData_empty_rejected :
  (List.length (@nil byte) mod 2 = 0)%nat
  /\ decodePcmData (Uint8Array_of []) (mkAudioContext 24000 running)
     = Throw NotSupportedError
  /\ forall b : AudioBuffer,
       decodePcmData (Uint8Array_of []) (mkAudioContext 24000 running) <> Ok b.
Proof. repeat split. discriminate. Qed.

(** C4. For every byte sequence of odd length [decodePcmData] fails: the
    [Int16Array] constructor throws a [RangeError] before any buffer is
    made, so no truncated result exists. *)
Theorem decodePcmData_odd_length (pcm : list byte) (ctx : AudioContext) :
  (List.length pcm mod 2 = 1)%nat ->
  decodePcmData (Uint8Array_of pcm) ctx = Throw RangeError.
Proof.
  intros Hodd. unfold decodePcmData, Uint8Array_of, new_Int16Array.
  cbn [buffer]. now rewrite Hodd.
Qed.

Lemma decodePcmData_odd_length_witness :
  decodePcmData (Uint8Array_of [x00; x80; xff]) (mkAudioContext 24000 running)
  = Throw RangeError.
Proof. apply decodePcmData_odd_length. reflexivity. Defined.

(** Each sample lies between [-1] and [32767/32768]: the scale is the
    asymmetric one, nothing is clamped or rescaled. *)
Lemma sample_range (lo hi : byte) :
  (-1 <= Qred (int16_le lo hi # 32768) <= 32767 # 32768)%Q.
Proof.
  pose proof (int16_le_range lo hi) as R.
  rewrite Qred_correct. unfold Qle. cbn [Qnum Qden]. lia.
Qed.

(** Each sample is a binary32 value, so storing the quotient in the
    [Float32Array] of the channel rounds nothing. *)
Lemma decodePcmData_samples_binary32 (lo hi : byte) :
  binary32_value (Qred (int16_le lo hi # 32768)).
Proof.
  pose proof (int16_le_range lo hi) as R.
  exists (int16_le lo hi), (-15)%Z. repeat split; try lia.
  rewrite Qred_correct. unfold Qeq. cbn. lia.
Qed.

End Pcm.

(** ** Base64: [decode] inverts the reference encoder *)

Section Base64.
Import Js Audio Reference.

Lemma list_ind3 (A : Type) (P : list A -> Prop) :
  P [] -> (forall a, P [a]) -> (forall a b, P [a; b]) ->
  (forall a b c l, P l -> P (a :: b :: c :: l)) ->
  forall l, P l.
Proof.
  intros H0 H1 H2 H3.
  assert (H : forall l, P l /\ (forall a, P (a :: l))
                        /\ (forall a b, P (a :: b :: l))).
  { induction l as [|x l (IH0 & IH1 & IH2)]; repeat split; auto. }
  intros l. apply H.
Qed.

(** The alphabet: [base64_index] inverts [base64_char], and no character of
    the alphabet is whitespace or padding. *)
Lemma base64_char_facts (v : Z) :
  (0 <= v < 64)%Z ->
  base64_index (base64_char v) = Some v
  /\ is_ascii_whitespace (base64_char v) = false
  /\ is_pad (base64_char v) = false.
Proof.
  intros Hv.
  assert (E : exists n : nat, v = Z.of_nat n /\ (n < 64)%nat).
  { exists (Z.to_nat v). lia. }
  destruct E as (n & -> & Hn).
  do 64 (destruct n as [|n]; [repeat split; reflexivity|]). lia.
Qed.

Lemma strip_padding_cons (c : ascii) (l : list ascii) :
  is_pad c = false -> strip_padding (c :: l) = c :: strip_padding l.
Proof.
  intros Hc. cbn [strip_padding]. rewrite Hc.
  destruct l as [|d [|e l]]; reflexivity.
Qed.

Lemma mod4_add4 (n : nat) : (S (S (S (S n))) mod 4 = n mod 4)%nat.
Proof.
  change (S (S (S (S n)))) with (1 * 4 + n)%nat.
  rewrite Nat.add_comm. now rewrite Nat.Div0.mod_add.
Qed.

Ltac sextet_bounds :=
  repeat match goal with
         | b : byte |- _ =>
             lazymatch goal with
             | _ : (0 <= byte_to_Z b < 256)%Z |- _ => fail
             | _ => pose proof (byte_to_Z_range b)
             end
         end.

Ltac euclid := Z.to_euclidean_division_equations; lia.

(** Three bytes survive the passage through four sextets. *)
Lemma three_bytes (a b c : byte) :
  let A := byte_to_Z a in
  let B := byte_to_Z b in
  let C := byte_to_Z c in
  let n := ((((A / 4) * 64 + ((A mod 4) * 16 + B / 16)) * 64
             + ((B mod 16) * 4 + C / 64)) * 64 + C mod 64)%Z in
  ToUint8 (n / 65536) = a /\ ToUint8 (n / 256) = b /\ ToUint8 n = c.
Proof.
  intros A B C n. sextet_bounds.
  assert (E : n = (A * 65536 + B * 256 + C)%Z) by (subst n A B C; euclid).
  rewrite E. subst A B C.
  repeat split; apply ToUint8_small; euclid.
Qed.

Lemma two_bytes (a b : byte) :
  let A := byte_to_Z a in
  let B := byte_to_Z b in
  let n := (((((A / 4) * 64 + ((A mod 4) * 16 + B / 16)) * 64
              + (B mod 16) * 4)) / 4)%Z in
  ToUint8 (n / 256) = a /\ ToUint8 n = b.
Proof.
  intros A B n. sextet_bounds.
  assert (E : n = (A * 256 + B)%Z) by (subst n A B; euclid).
  rewrite E. subst A B.
  split; apply ToUint8_small; euclid.
Qed.

Lemma one_byte (a : byte) :
  let A := byte_to_Z a in
  ToUint8 (((A / 4) * 64 + (A mod 4) * 16) / 16) = a.
Proof.
  intros A. sextet_bounds. apply ToUint8_small. subst A. euclid.
Qed.

Ltac char_facts v :=
  let F := fresh "F" in
  assert (F : (0 <= v < 64)%Z) by (sextet_bounds; euclid);
  apply base64_char_facts in F;
  let Fi := fresh "Fi" in
  let Fw := fresh "Fw" in
  let Fp := fresh "Fp" in
  destruct F as (Fi & Fw & Fp);
  generalize dependent (base64_char v); intros ? Fi Fw Fp.

(** The passes of the forgiving decoder over an encoder output: there is
    no whitespace to drop, the length is a multiple of four, what is left
    once the padding is stripped has no length 1 modulo 4 and consists of
    alphabet characters whose sextets regroup into the bytes. *)
Lemma forgiving_passes (bytes : list byte) :
  let enc := base64Encode_chars bytes in
  filter (fun c => negb (is_ascii_whitespace c)) enc = enc
  /\ (List.length enc mod 4 = 0)%nat
  /\ (List.length (strip_padding enc) mod 4 <> 1)%nat
  /\ exists vs, sextets (strip_padding enc) = Some vs
               /\ bytes_of_sextets vs = bytes.
Proof.
  induction bytes as [| a | a b | a b c rest IH] using list_ind3;
    cbn [base64Encode_chars]; cbv zeta.
  - repeat split; [cbn; lia | exists []; split; reflexivity].
  - pose proof (one_byte a) as B1. cbv zeta in B1.
    char_facts (byte_to_Z a / 4)%Z.
    char_facts (byte_to_Z a mod 4 * 16)%Z.
    repeat split.
    + cbn [filter]. rewrite Fw, Fw0. reflexivity.
    + rewrite !strip_padding_cons by assumption. cbn. lia.
    + rewrite !strip_padding_cons by assumption.
      cbn [strip_padding is_pad pad N_of_ascii N.eqb Pos.eqb andb sextets].
      cbn. rewrite Fi, Fi0. eexists. split; [reflexivity|].
      cbn [bytes_of_sextets]. now rewrite B1.
  - pose proof (two_bytes a b) as B2. cbv zeta in B2. destruct B2 as (Ba & Bb).
    char_facts (byte_to_Z a / 4)%Z.
    char_facts (byte_to_Z a mod 4 * 16 + byte_to_Z b / 16)%Z.
    char_facts (byte_to_Z b mod 16 * 4)%Z.
    repeat split.
    + cbn [filter]. rewrite Fw, Fw0, Fw1. reflexivity.
    + rewrite !strip_padding_cons by assumption. cbn. lia.
    + rewrite !strip_padding_cons by assumption.
      cbn. rewrite Fi, Fi0, Fi1. eexists. split; [reflexivity|].
      cbn [bytes_of_sextets]. now rewrite Ba, Bb.
  - destruct IH as (IHf & IHl & IHs & vs & IHv & IHb). cbv zeta in *.
    pose proof (three_bytes a b c) as B3. cbv zeta in B3.
    destruct B3 as (Ba & Bb & Bc).
    char_facts (byte_to_Z a / 4)%Z.
    char_facts (byte_to_Z a mod 4 * 16 + byte_to_Z b / 16)%Z.
    char_facts (byte_to_Z b mod 16 * 4 + byte_to_Z c / 64)%Z.
    char_facts (byte_to_Z c mod 64)%Z.
    repeat split.
    + cbn [filter]. rewrite Fw, Fw0, Fw1, Fw2. cbn [negb]. now rewrite IHf.
    + cbn [List.length]. now rewrite mod4_add4.
    + rewrite !strip_padding_cons by assumption.
      cbn [List.length]. now rewrite mod4_add4.
    + rewrite !strip_padding_cons by assumption.
      cbn [sextets]. rewrite Fi, Fi0, Fi1, Fi2, IHv.
      eexists. split; [reflexivity|].
      cbn [bytes_of_sextets]. cbv zeta. now rewrite Ba, Bb, Bc, IHb.
Qed.

(** [atob] returns the encoded bytes as a binary string. *)
Lemma atob_base64Encode (bytes : list byte) :
  atob (base64Encode bytes) = Ok (string_of_list_byte bytes).
Proof.
  unfold atob, base64Encode, forgiving_base64_decode.
  rewrite list_ascii_of_string_of_list_ascii.
  destruct (forgiving_passes bytes) as (Hf & Hl & Hs & vs & Hv & Hb).
  cbv zeta in *. rewrite Hf, Hl. cbn [Nat.eqb].
  apply Nat.eqb_neq in Hs. rewrite Hs, Hv. cbn [option_map]. now rewrite Hb.
Qed.

Lemma get_string_of_list_ascii (l : list ascii) (i : nat) :
  String.get i (string_of_list_ascii l) = nth_error l i.
Proof.
  revert i. induction l as [|c l IH]; intros [|i]; cbn; auto.
Qed.

Lemma length_string_of_list_ascii (l : list ascii) :
  String.length (string_of_list_ascii l) = List.length l.
Proof. induction l; cbn; auto. Qed.

Lemma length_string_of_list_byte (bs : list byte) :
  String.length (string_of_list_byte bs) = List.length bs.
Proof.
  unfold string_of_list_byte.
  now rewrite length_string_of_list_ascii, length_map.
Qed.

Lemma N_of_ascii_of_byte (b : byte) :
  N_of_ascii (ascii_of_byte b) = Byte.to_N b.
Proof. destruct b; reflexivity. Qed.

Lemma charCodeAt_binary (bs : list byte) (i : nat) :
  charCodeAt (string_of_list_byte bs) i
  = option_map byte_to_Z (nth_error bs i).
Proof.
  unfold charCodeAt, string_of_list_byte.
  rewrite get_string_of_list_ascii, nth_error_map.
  destruct (nth_error bs i); cbn; [|reflexivity].
  now rewrite N_of_ascii_of_byte.
Qed.

Lemma u8_set_in_range (arr : Uint8Array) (i : nat) (v : Z) :
  (i < length arr)%nat ->
  u8_set arr i v
  = mkUint8Array (write_at (byteOffset arr + i) [ToUint8 v] (buffer arr))
                 (byteOffset arr) (length arr).
Proof. intros H. unfold u8_set. apply Nat.ltb_lt in H. now rewrite H. Qed.

(** The copy loop of [decode] over the binary string of [done ++ todo],
    started at index [length done]. *)
Lemma decode_loop (todo done : list byte) (n : nat) :
  n = List.length (done ++ todo) ->
  for_loop (List.length todo) (List.length done)
    (fun i bytes =>
       u8_set bytes i
         (number_of (charCodeAt (string_of_list_byte (done ++ todo)) i)))
    (mkUint8Array (done ++ repeat x00 (List.length todo)) 0 n)
  = mkUint8Array (done ++ todo) 0 n.
Proof.
  revert done. induction todo as [|b todo IH]; intros done Hn.
  - cbn. now rewrite app_nil_r.
  - assert (E : (done ++ b :: todo = (done ++ [b]) ++ todo)%list)
      by now rewrite <- app_assoc.
    cbn [List.length for_loop repeat].
    rewrite charCodeAt_binary, nth_error_app2, Nat.sub_diag by lia.
    cbn [nth_error option_map number_of].
    rewrite u8_set_in_range
      by (cbn [length]; rewrite Hn, length_app; cbn; lia).
    cbn [length byteOffset buffer Nat.add].
    rewrite ToUint8_byte_to_Z, write_at_app. cbn [overwrite].
    rewrite E in *. rewrite <- (IH (done ++ [b])%list) by exact Hn.
    rewrite length_app, Nat.add_1_r, <- !app_assoc. reflexivity.
Qed.

(** C5. For every byte sequence, decoding its base64 encoding returns the
    bytes: [decode (base64Encode bytes)] is the array that holds exactly
    [bytes]. *)
Theorem decode_base64Encode (bytes : list byte) :
  decode (base64Encode bytes) = Ok (Uint8Array_of bytes)
  /\ u8_elements (Uint8Array_of bytes) = bytes.
Proof.
  split.
  - unfold decode. rewrite atob_base64Encode. cbn [bind].
    rewrite length_string_of_list_byte.
    pose proof (decode_loop bytes [] (List.length bytes) eq_refl) as L.
    cbn [List.length app] in L. unfold new_Uint8Array, new_ArrayBuffer.
    now rewrite L.
  - unfold u8_elements, Uint8Array_of. cbn. apply firstn_all.
Qed.

End Base64.

(** ** The end-to-end scenario *)

Section EndToEnd.
Import Js Audio Format.

(** C3 fails in its last figure: the second sample of the scenario is
    [-255/32768], which is not [511/32768]. *)
Lemma scenario_second_sample_not_511 :
  decode "AAAB/w==" = Ok (Uint8Array_of [x00; x00; x01; xff])
  /\ decodePcmData (Uint8Array_of [x00; x00; x01; xff])
                   (mkAudioContext 24000 running)
     = Ok (mkAudioBuffer 1 2 24000 [[Num 0; Num (-255 # 32768)]])
  /\ ~ Qeq (-255 # 32768) (511 # 32768).
Proof. repeat split. unfold Qeq. cbn. lia. Qed.

(** C3, as the code has it.  The base64 string ["AAAB/w=="] decodes to the
    bytes [00 00 01 FF]; [createWavBlob] turns them into 48 bytes whose
    bytes 40 to 43 hold 4; [decodePcmData] turns them into 2 frames on 1
    channel, the samples [0] and [-255/32768], [-255] being the 16-bit
    integer [0xFF01] that the bytes [01 FF] form low byte first. *)
Theorem end_to_end_scenario (ctx : AudioContext) :
  decode "AAAB/w==" = Ok (Uint8Array_of [x00; x00; x01; xff])
  /\ (exists out : list byte,
        createWavBlob (Uint8Array_of [x00; x00; x01; xff])
        = Ok (mkBlob out "audio/wav")
        /\ List.length out = 48%nat
        /\ slice 40 44 out = [x04; x00; x00; x00]
        /\ uint_le (slice 40 44 out) = 4%Z)
  /\ decodePcmData (Uint8Array_of [x00; x00; x01; xff]) ctx
     = Ok (mkAudioBuffer 1 2 24000 [[Num 0; Num (-255 # 32768)]])
  /\ int16_le x00 x00 = 0%Z
  /\ int16_le x01 xff = (-255)%Z
  /\ Qeq (0 # 32768) 0.
Proof.
  split; [reflexivity|]. split.
  - eexists. split; [reflexivity|]. repeat split.
  - repeat split.
Qed.

End EndToEnd.

(** ** The playback component *)

Section Playback.
Import Js GeminiService Summarizer Invariant Scenario.

Lemma run_invariant (P : World -> Prop) :
  (forall e w w', P w -> step e w = Some w' -> P w') ->
  forall trace w w', P w -> run trace w = Some w' -> P w'.
Proof.
  intros Hstep. induction trace as [|e trace IH]; intros w w' Hw Hrun.
  - cbn in Hrun. now inversion Hrun; subst.
  - cbn in Hrun. destruct (step e w) as [w1|] eqn:E; [|discriminate].
    eapply IH; [|exact Hrun]. eapply Hstep; eauto.
Qed.

Lemma reachable_invariant (P : World -> Prop) :
  P initial ->
  (forall e w w', P w -> step e w = Some w' -> P w') ->
  forall w, reachable w -> P w.
Proof.
  intros H0 Hstep w (trace & Hrun). eapply run_invariant; eauto.
Qed.

Lemma reachable_step (e : Event) (w w' : World) :
  reachable w -> step e w = Some w' -> reachable w'.
Proof.
  intros (trace & Hrun) Hstep. exists (trace ++ [e])%list.
  revert Hrun. generalize initial. induction trace as [|x trace IH]; intros w0 Hrun.
  - cbn in *. inversion Hrun; subst. now rewrite Hstep.
  - cbn in *. destruct (step x w0); [now apply IH | discriminate].
Qed.

(** *** Lists updated by index *)

Lemma nth_error_update_nth_eq {A} (f : A -> A) (l : list A) (k : nat) :
  nth_error (update_nth k f l) k = option_map f (nth_error l k).
Proof.
  revert k. induction l as [|x l IH]; intros [|k]; cbn; auto.
Qed.

Lemma nth_error_update_nth_ne {A} (f : A -> A) (l : list A) (j k : nat) :
  j <> k -> nth_error (update_nth k f l) j = nth_error l j.
Proof.
  revert j k. induction l as [|x l IH]; intros [|j] [|k] H; cbn; auto.
  - congruence.
Qed.

Lemma update_nth_id {A} (f : A -> A) (l : list A) (k : nat) :
  (forall x, nth_error l k = Some x -> f x = x) -> update_nth k f l = l.
Proof.
  revert k. induction l as [|x l IH]; intros [|k] H; cbn; auto.
  - now rewrite (H x eq_refl).
  - now rewrite IH.
Qed.

Lemma update_nth_twice {A} (f : A -> A) (l : list A) (k : nat) :
  (forall x, f (f x) = f x) ->
  update_nth k f (update_nth k f l) = update_nth k f l.
Proof.
  intros Hf. revert k. induction l as [|x l IH]; intros [|k]; cbn; auto.
  - now rewrite Hf.
  - now rewrite IH.
Qed.

Lemma length_update_nth {A} (f : A -> A) (l : list A) (k : nat) :
  List.length (update_nth k f l) = List.length l.
Proof.
  revert k. induction l as [|x l IH]; intros [|k]; cbn; auto.
Qed.

(** *** The render after a task *)

Lemma same_file_refl (a : option App.File) : same_file a a = true.
Proof. destruct a; cbn; [apply Nat.eqb_refl | reflexivity]. Qed.

Lemma same_string_refl (a : option string) : same_string a a = true.
Proof. destruct a; cbn; [apply String.eqb_refl | reflexivity]. Qed.

(** A task that leaves the App state alone triggers no effect. *)
Lemma commit_same (w : World) : commit (app w) w = w.
Proof.
  unfold commit.
  rewrite same_file_refl, same_string_refl, Bool.eqb_reflx, String.eqb_refl.
  now destruct (mounted w).
Qed.

Lemma app_stop_current (w : World) : app (stop_current w) = app w.
Proof. unfold stop_current. now destruct (audioSourceRef (comp w)). Qed.

Lemma app_playBuffer (a : string) (w : World) : app (playBuffer a w) = app w.
Proof. reflexivity. Qed.

(** The effect on the generated audio never reaches the App: its guard
    asks for audio, which sends [playSummaryAudio] to its stop or play
    branch. *)
Lemma app_autoplay_effect (b : bool) (w : World) :
  app (autoplay_effect b w) = app w.
Proof.
  unfold autoplay_effect, playSummaryAudio, truthy_option.
  destruct (App.summaryAudio (app w)) as [a|]; [|reflexivity].
  destruct (truthy a); [|reflexivity].
  destruct (App.isLoading (app w)); [|reflexivity].
  destruct (String.eqb _ _); [|reflexivity]. cbn [andb].
  destruct (negb _); [reflexivity|].
  destruct b; [|reflexivity].
  cbn [setIsPlaying with_comp app]. apply app_stop_current.
Qed.

Lemma app_audioFile_effect (b : bool) (w : World) :
  app (audioFile_effect b w) = app w.
Proof.
  unfold audioFile_effect. destruct b; [|reflexivity].
  cbn [setIsPlaying with_comp app]. apply app_stop_current.
Qed.

Lemma app_commit (r : App.State) (w : World) : app (commit r w) = app w.
Proof.
  unfold commit. destruct (mounted w); [|reflexivity].
  destruct (same_file _ _), (_ && _ && _)%bool;
    rewrite ?app_autoplay_effect, ?app_audioFile_effect; reflexivity.
Qed.

(** *** The source ref, the flag and the nodes stay consistent *)

Lemma node_stop_not_playing (n : SourceNode) :
  node_state (node_stop n) <> Playing.
Proof. unfold node_stop. destruct (node_state n) eqn:E; cbn; congruence. Qed.

Lemma node_stop_owner (n : SourceNode) : node_owner (node_stop n) = node_owner n.
Proof. unfold node_stop. now destruct (node_state n). Qed.

Lemma node_stop_idle (n : SourceNode) :
  node_state n <> Playing -> node_stop n = n.
Proof. unfold node_stop. destruct (node_state n); congruence. Qed.

Lemma node_stop_twice (n : SourceNode) : node_stop (node_stop n) = node_stop n.
Proof. apply node_stop_idle, node_stop_not_playing. Qed.

(** The stop of the toggle and of the [audioFile] effect. *)
Lemma consistent_stop (w : World) :
  consistent w -> consistent (setIsPlaying false (stop_current w)).
Proof.
  unfold consistent, stop_current.
  destruct (audioSourceRef (comp w)) as [k|] eqn:E; cbn; rewrite ?E.
  - intros (n & Hn & Ho & _). exists (node_stop n).
    rewrite nth_error_update_nth_eq, Hn. split; [reflexivity|].
    split; [now rewrite node_stop_owner|].
    split; [intros H; now apply node_stop_not_playing in H | discriminate].
  - reflexivity.
Qed.

Lemma consistent_stop_current (w : World) :
  consistent w -> isPlaying (comp w) = false -> stop_current w = w.
Proof.
  unfold consistent, stop_current.
  destruct (audioSourceRef (comp w)) as [k|]; [|reflexivity].
  intros (n & Hn & _ & Hs) Hidle.
  rewrite update_nth_id; [now destruct w|].
  intros x Hx. rewrite Hn in Hx. inversion Hx; subst x.
  apply node_stop_idle. intros Hp. apply Hs in Hp. congruence.
Qed.

Lemma consistent_playBuffer (a : string) (w : World) :
  consistent w -> consistent (playBuffer a w).
Proof. unfold consistent, playBuffer. cbn. auto. Qed.

Lemma consistent_onGenerateSpeech (w : World) :
  consistent w -> consistent (onGenerateSpeech w).
Proof.
  unfold consistent, onGenerateSpeech.
  destruct (App.handleGenerateSpeech (app w)). cbn. auto.
Qed.

Lemma consistent_playSummaryAudio (b : bool) (w : World) :
  consistent w -> consistent (playSummaryAudio b w).
Proof.
  intros H. unfold playSummaryAudio.
  destruct (negb _); [exact H|].
  destruct b; [now apply consistent_stop|].
  destruct (App.summaryAudio (app w)) as [a|];
    [destruct (truthy a)|];
    auto using consistent_playBuffer, consistent_onGenerateSpeech.
Qed.

Lemma consistent_commit (r : App.State) (w : World) :
  consistent w -> consistent (commit r w).
Proof.
  intros H. unfold commit, audioFile_effect, autoplay_effect.
  destruct (mounted w); [|exact H].
  assert (H1 : consistent
                 (if same_file (App.audioFile r) (App.audioFile (app w))
                  then w
                  else if isPlaying (comp w)
                       then setIsPlaying false (stop_current w) else w)).
  { destruct (same_file _ _); [exact H|].
    destruct (isPlaying (comp w)); [now apply consistent_stop | exact H]. }
  destruct (_ && _ && _)%bool; [exact H1|].
  destruct (_ && _ && _)%bool; [|exact H1].
  now apply consistent_playSummaryAudio.
Qed.

Lemma consistent_with_app (a : App.State) (w : World) :
  consistent w -> consistent (with_app a w).
Proof. auto. Qed.

Lemma consistent_with_awaiting (l : list App.Suspended) (w : World) :
  consistent w -> consistent (with_awaiting l w).
Proof. auto. Qed.

Lemma consistent_with_plays (l : list PendingPlay) (w : World) :
  consistent w -> consistent (with_plays l w).
Proof. auto. Qed.

Lemma consistent_resumed (p : PendingPlay) (w : World) :
  consistent w -> consistent (playBuffer_resumed p w).
Proof.
  intros H. unfold playBuffer_resumed.
  set (w1 := if (play_owner p =? instance w)%nat
             then set_audioContextRef _ w else w).
  assert (H1 : consistent w1).
  { subst w1. destruct (_ =? _)%nat; [|exact H]. exact H. }
  assert (I1 : instance w1 = instance w).
  { subst w1. now destruct (_ =? _)%nat. }
  clearbody w1.
  destruct (Audio.decode _) as [pcmData|]; [|exact H1].
  destruct (Audio.decodePcmData _ _) as [decodedBuffer|]; [|exact H1].
  cbn [with_nodes instance].
  destruct (Nat.eqb_spec (play_owner p) (instance w1)) as [Ho|Ho].
  - unfold consistent. cbn.
    exists (mkNode decodedBuffer Playing (play_owner p)).
    rewrite nth_error_app2, Nat.sub_diag by lia. cbn. tauto.
  - revert H1. unfold consistent. cbn.
    destruct (audioSourceRef (comp w1)) as [k|]; [|auto].
    intros (n & Hn & Hrest). exists n. split; [|exact Hrest].
    rewrite nth_error_app1; [exact Hn|].
    apply nth_error_Some. now rewrite Hn.
Qed.

Lemma consistent_ended (k : nat) (n : SourceNode) (w : World) :
  nth_error (nodes w) k = Some n ->
  consistent w ->
  consistent (onended (node_owner n)
                (with_nodes (update_nth k node_end (nodes w)) w)).
Proof.
  intros Hk H. unfold onended. cbn [with_nodes instance].
  destruct (Nat.eqb_spec (node_owner n) (instance w)) as [Ho|Ho].
  - reflexivity.
  - revert H. unfold consistent. cbn.
    destruct (audioSourceRef (comp w)) as [j|]; [|auto].
    intros (m & Hm & Hmo & Hms). exists m.
    destruct (Nat.eq_dec j k) as [->|Hjk].
    + rewrite Hk in Hm. inversion Hm; subst m. contradiction.
    + rewrite nth_error_update_nth_ne by exact Hjk. auto.
Qed.

Lemma consistent_selectView (v : App.View) (w : World) :
  consistent w -> consistent (selectView v w).
Proof.
  intros H. unfold selectView.
  destruct (App.view (app w)), v; try exact H.
  - reflexivity.
  - unfold audioFile_effect, autoplay_effect.
    destruct (_ && _ && _)%bool; [|exact H].
    now apply consistent_playSummaryAudio.
Qed.

Lemma consistent_step (e : Event) (w w' : World) :
  consistent w -> step e w = Some w' -> consistent w'.
Proof.
  intros H Hstep. destruct e; cbn [step] in Hstep.
  - destruct (_ && _)%bool; inversion Hstep; subst.
    now apply consistent_commit.
  - destruct (_ && _ && _)%bool; inversion Hstep; subst.
    now apply consistent_commit.
  - destruct (_ && _ && _)%bool; inversion Hstep; subst.
    now apply consistent_commit, consistent_playSummaryAudio.
  - destruct (_ && _ && _)%bool; inversion Hstep; subst. exact H.
  - inversion Hstep; subst. now apply consistent_selectView.
  - destruct (nth_error (awaiting w) k) as [[| |]|]; inversion Hstep; subst.
    now apply consistent_commit.
  - destruct (nth_error (awaiting w) k) as [[| |]|]; inversion Hstep; subst;
      now apply consistent_commit.
  - destruct (nth_error (plays w) k) as [p|]; inversion Hstep; subst.
    now apply consistent_resumed.
  - destruct (nth_error (nodes w) k) as [n|] eqn:Hk; [|discriminate].
    destruct (node_state n); inversion Hstep; subst;
      now apply consistent_ended.
Qed.

Lemma reachable_consistent (w : World) : reachable w -> consistent w.
Proof.
  apply reachable_invariant; [reflexivity|].
  intros e w0 w1. apply consistent_step.
Qed.

(** *** The loading flag and its label *)

Lemma labelled_step (e : Event) (w w' : World) :
  labelled (app w) -> step e w = Some w' -> labelled (app w').
Proof.
  unfold labelled. intros H Hstep. destruct e; cbn [step] in Hstep.
  - destruct (_ && _)%bool; inversion Hstep; subst. rewrite app_commit.
    cbn [with_app app]. unfold App.handleFileChange.
    destruct file as [f|]; [destruct (String.prefix _ _)|]; exact H.
  - destruct (_ && _ && _)%bool; inversion Hstep; subst. rewrite app_commit.
    cbn [with_app with_awaiting app]. unfold App.processAudio.
    destruct (App.audioFile (app w)); cbn; [discriminate | exact H].
  - destruct (_ && _ && _)%bool; inversion Hstep; subst. rewrite app_commit.
    unfold playSummaryAudio.
    destruct (negb _); [exact H|].
    destruct (isPlaying (comp w)).
    { cbn [setIsPlaying with_comp app]. now rewrite app_stop_current. }
    assert (G : App.isLoading (app (onGenerateSpeech w)) = true ->
                App.loadingStep (app (onGenerateSpeech w)) <> ""%string).
    { unfold onGenerateSpeech, App.handleGenerateSpeech.
      destruct (negb _); cbn; [exact H | discriminate]. }
    destruct (App.summaryAudio (app w)) as [a|]; [destruct (truthy a)|];
      [exact H | exact G | exact G].
  - destruct (_ && _ && _)%bool; inversion Hstep; subst. exact H.
  - inversion Hstep; subst. unfold selectView.
    destruct (App.view (app w)), v; try exact H.
    rewrite app_autoplay_effect, app_audioFile_effect. exact H.
  - destruct (nth_error (awaiting w) k) as [[| |]|]; inversion Hstep; subst.
    unfold settle. rewrite app_commit. cbn. discriminate.
  - destruct (nth_error (awaiting w) k) as [[| |]|]; inversion Hstep; subst;
      unfold settle; rewrite app_commit; cbn [with_app with_awaiting app fst].
    + destruct (transcribeAudio reply); cbn; discriminate.
    + destruct (summarizeText reply); cbn; discriminate.
    + destruct (generateSpeech reply); cbn; discriminate.
  - destruct (nth_error (plays w) k) as [p|]; inversion Hstep; subst.
    unfold playBuffer_resumed. cbn [with_plays instance].
    destruct (_ =? _)%nat;
      destruct (Audio.decode _); try exact H;
      destruct (Audio.decodePcmData _ _); try exact H;
      cbn [with_nodes instance]; try rewrite Nat.eqb_refl;
      try destruct (_ =? _)%nat; exact H.
  - destruct (nth_error (nodes w) k) as [n|]; [|discriminate].
    unfold onended in Hstep. cbn [with_nodes instance] in Hstep.
    destruct (node_state n); inversion Hstep; subst;
      destruct (_ =? _)%nat; exact H.
Qed.

Lemma reachable_labelled (w : World) : reachable w -> labelled (app w).
Proof.
  apply (reachable_invariant (fun w => labelled (app w))).
  - discriminate.
  - intros e w0 w1. apply labelled_step.
Qed.

(** The effect that was to play the audio once generated never fires: its
    guard wants the App loading with an empty loading step, which no
    handler establishes.  After a successful generation the audio plays
    only when the control is used again. *)
Lemma autoplay_effect_never_fires (b : bool) (w : World) :
  reachable w -> autoplay_effect b w = w.
Proof.
  intros H%reachable_labelled. unfold autoplay_effect, labelled in *.
  destruct (truthy_option _); [|reflexivity].
  destruct (App.isLoading (app w)); [|reflexivity].
  destruct (String.eqb_spec (App.loadingStep (app w)) ""); [|reflexivity].
  now elim H.
Qed.

(** *** Sessions *)

Lemma live_app (l1 l2 : list SourceNode) (w : World) :
  live (with_nodes (l1 ++ l2) w)
  = (live (with_nodes l1 w) ++ live (with_nodes l2 w))%list.
Proof. unfold live. cbn. apply filter_app. Qed.

Lemma update_nth_last {A} (f : A -> A) (l : list A) (x : A) :
  update_nth (List.length l) f (l ++ [x]) = (l ++ [f x])%list.
Proof. induction l as [|y l IH]; cbn; [reflexivity | now rewrite IH]. Qed.

Lemma decodePcmData_any_context (pcm : Uint8Array) (c1 c2 : AudioContext) :
  Audio.decodePcmData pcm c1 = Audio.decodePcmData pcm c2.
Proof. reflexivity. Qed.

Lemma decoded_inv (a : string) (r : Result AudioBuffer) (ctx : AudioContext) :
  decoded a = r ->
  match Audio.decode a with
  | Ok pcm => Audio.decodePcmData pcm ctx = r
  | Throw e => r = Throw e
  end.
Proof.
  unfold decoded. destruct (Audio.decode a); cbn; intros <-; reflexivity.
Qed.

(** A resumed [playBuffer] of the mounted instance whose decoding
    succeeds: one more node, audible, referenced, the flag set. *)
Lemma resumed_ok (p : PendingPlay) (w : World)
      (pcm : Uint8Array) (buf : AudioBuffer) :
  play_owner p = instance w ->
  Audio.decode (play_base64 p) = Ok pcm ->
  Audio.decodePcmData pcm
    (mkAudioContext (ctx_sampleRate (play_context p)) running) = Ok buf ->
  playBuffer_resumed p w
  = mkWorld (app w) (awaiting w)
      (mkComp true
         (Some (mkAudioContext (ctx_sampleRate (play_context p)) running))
         (Some (List.length (nodes w))))
      (instance w)
      (nodes w ++ [mkNode buf Playing (play_owner p)])%list
      (plays w).
Proof.
  intros Ho Hd Hb. unfold playBuffer_resumed.
  rewrite Ho, Nat.eqb_refl, Hd, Hb.
  cbn [with_nodes set_audioContextRef with_comp instance].
  rewrite Nat.eqb_refl. reflexivity.
Qed.

(** The play control on an idle controller with audio at hand: the
    suspended [playBuffer] is the only effect. *)
Lemma step_play_idle (w : World) (a : string) :
  mounted w = true -> truthy (App.summary (app w)) = true ->
  App.isLoading (app w) = false ->
  App.summaryAudio (app w) = Some a -> truthy a = true ->
  isPlaying (comp w) = false ->
  step PlayClicked w = Some (playBuffer a w).
Proof.
  intros Hm Hs Hl Ha Ht Hp. cbn [step]. rewrite Hm, Hs, Hl. cbn [andb negb].
  unfold playSummaryAudio. rewrite Hs, Hp, Ha, Ht. cbn [negb].
  change (app w) with (app (playBuffer a w)). now rewrite commit_same.
Qed.

(** The play control on a playing controller: the stop branch. *)
Lemma step_play_playing (w : World) :
  mounted w = true -> truthy (App.summary (app w)) = true ->
  App.isLoading (app w) = false ->
  isPlaying (comp w) = true ->
  step PlayClicked w = Some (setIsPlaying false (stop_current w)).
Proof.
  intros Hm Hs Hl Hp. cbn [step]. rewrite Hm, Hs, Hl. cbn [andb negb].
  unfold playSummaryAudio. rewrite Hs, Hp. cbn [negb].
  rewrite <- (app_stop_current w).
  change (app (stop_current w))
    with (app (setIsPlaying false (stop_current w))).
  now rewrite commit_same.
Qed.

Lemma playing_consistent (w : World) (k : nat) :
  reachable w -> isPlaying (comp w) = true -> audioSourceRef (comp w) = Some k ->
  exists n, nth_error (nodes w) k = Some n
            /\ node_state n = Playing /\ node_owner n = instance w.
Proof.
  intros Hr Hp Hk. apply reachable_consistent in Hr. unfold consistent in Hr.
  rewrite Hk in Hr. destruct Hr as (n & Hn & Ho & Hs).
  exists n. tauto.
Qed.

(** *** The claims on the controller *)

(** C10. In every reachable world, if [isPlaying] is true then
    [audioSourceRef.current] is not null; the node it refers to was created
    by the mounted instance and is audible, so a controller that reports
    Playing holds a session it can stop. *)
Theorem playing_holds_a_source (w : World) :
  reachable w -> isPlaying (comp w) = true ->
  audioSourceRef (comp w) <> None
  /\ exists k n,
       audioSourceRef (comp w) = Some k
       /\ nth_error (nodes w) k = Some n
       /\ node_state n = Playing
       /\ node_owner n = instance w.
Proof.
  intros Hr Hp. apply reachable_consistent in Hr. unfold consistent in Hr.
  destruct (audioSourceRef (comp w)) as [k|]; [|congruence].
  split; [discriminate|].
  destruct Hr as (n & Hn & Ho & Hs). exists k, n. tauto.
Qed.

Lemma playing_holds_a_source_witness :
  audioSourceRef
    (comp (world_after (ready_trace ++ [PlayClicked; ResumeSettled 0])))
  <> None.
Proof.
  refine (proj1 (playing_holds_a_source
                   (world_after (ready_trace ++ [PlayClicked; ResumeSettled 0]))
                   _ _)).
  - exists (ready_trace ++ [PlayClicked; ResumeSettled 0])%list.
    vm_compute. reflexivity.
  - vm_compute. reflexivity.
Defined.

(** C9. On a controller that is not playing, the stop of the component
    changes nothing, and neither does the stop call of the unmount cleanup:
    the world is the same afterwards, the controller still idle.  Both are
    total functions, so no error can come of them, and both are idempotent
    in every world. *)
Theorem stop_when_idle (w : World) :
  reachable w -> isPlaying (comp w) = false ->
  stop w = w
  /\ unmount_cleanup w = w
  /\ isPlaying (comp (stop w)) = false
  /\ (forall w0 : World, stop (stop w0) = stop w0)
  /\ (forall w0 : World,
        unmount_cleanup (unmount_cleanup w0) = unmount_cleanup w0).
Proof.
  intros Hr Hp. apply reachable_consistent in Hr.
  assert (E : stop w = w) by (unfold stop, audioFile_effect; now rewrite Hp).
  split; [exact E|]. split; [now apply consistent_stop_current|].
  split; [now rewrite E|]. split.
  - intros w0. unfold stop, audioFile_effect.
    destruct (isPlaying (comp w0)) eqn:E0; [reflexivity | now rewrite E0].
  - intros w0. unfold unmount_cleanup, stop_current.
    destruct (audioSourceRef (comp w0)) as [k|] eqn:E0; cbn; rewrite E0;
      [|reflexivity].
    cbn. now rewrite update_nth_twice by apply node_stop_twice.
Qed.

Lemma stop_when_idle_witness :
  stop (world_after ready_trace) = world_after ready_trace.
Proof.
  refine (proj1 (stop_when_idle (world_after ready_trace) _ _)).
  - exists ready_trace. vm_compute. reflexivity.
  - vm_compute. reflexivity.
Defined.

(** C7 fails: explicit cancellation suppresses nothing.  After play and an
    explicit stop, the ended event of the stopped source can be delivered
    and its callback runs the completion transition, here clearing the
    source reference; delivered after a new session has started, the same
    callback clears the playing flag and the reference while that session
    is audible. *)
Lemma callback_fires_after_stop :
  (exists w w',
      run (ready_trace ++ [PlayClicked; ResumeSettled 0; PlayClicked]) initial
      = Some w
      /\ isPlaying (comp w) = false
      /\ audioSourceRef (comp w) = Some 0
      /\ step (SourceEnded 0) w = Some w'
      /\ audioSourceRef (comp w') = None)
  /\ (exists w w',
         run (ready_trace ++ [PlayClicked; ResumeSettled 0; PlayClicked;
                              PlayClicked; ResumeSettled 0]) initial
         = Some w
         /\ isPlaying (comp w) = true
         /\ audioSourceRef (comp w) = Some 1
         /\ step (SourceEnded 0) w = Some w'
         /\ isPlaying (comp w') = false
         /\ audioSourceRef (comp w') = None
         /\ List.length (live w') = 1).
Proof.
  split.
  - exists (world_after
              (ready_trace ++ [PlayClicked; ResumeSettled 0; PlayClicked])),
           (world_after
              (ready_trace ++ [PlayClicked; ResumeSettled 0; PlayClicked;
                               SourceEnded 0])).
    repeat match goal with |- _ /\ _ => split end; vm_compute; reflexivity.
  - exists (world_after
              (ready_trace ++ [PlayClicked; ResumeSettled 0; PlayClicked;
                               PlayClicked; ResumeSettled 0])),
           (world_after
              (ready_trace ++ [PlayClicked; ResumeSettled 0; PlayClicked;
                               PlayClicked; ResumeSettled 0; SourceEnded 0])).
    repeat match goal with |- _ /\ _ => split end; vm_compute; reflexivity.
Qed.

(** C7, as the code has it.  An explicit stop of a playing controller
    makes it idle at once and halts the source, but does not suppress the
    completion callback of the stopped session: the ended event of the
    source can still be delivered, and the callback then runs the
    completion transition.  Delivered right after the stop it finds the
    flag clear and clears the source reference. *)
Theorem stop_then_callback (w : World) (k : nat) :
  reachable w -> mounted w = true ->
  truthy (App.summary (app w)) = true -> App.isLoading (app w) = false ->
  isPlaying (comp w) = true -> audioSourceRef (comp w) = Some k ->
  exists w1 w2 n,
    step PlayClicked w = Some w1
    /\ isPlaying (comp w1) = false
    /\ nth_error (nodes w1) k = Some n /\ node_state n = Stopped
    /\ step (SourceEnded k) w1 = Some w2
    /\ isPlaying (comp w2) = false
    /\ audioSourceRef (comp w2) = None.
Proof.
  intros Hr Hm Hs Hl Hp Hk.
  destruct (playing_consistent w k Hr Hp Hk) as (n & Hn & Hst & Ho).
  exists (setIsPlaying false (stop_current w)).
  eexists. exists (node_stop n).
  split; [now apply step_play_playing|].
  split; [reflexivity|].
  assert (Hn1 : nth_error (nodes (setIsPlaying false (stop_current w))) k
                = Some (node_stop n)).
  { unfold stop_current. rewrite Hk. cbn.
    now rewrite nth_error_update_nth_eq, Hn. }
  split; [exact Hn1|].
  assert (Hst1 : node_state (node_stop n) = Stopped).
  { unfold node_stop. now rewrite Hst. }
  split; [exact Hst1|].
  cbn [step]. rewrite Hn1, Hst1. split; [reflexivity|].
  unfold onended. cbn [with_nodes instance].
  rewrite node_stop_owner, Ho.
  assert (Hi : instance (setIsPlaying false (stop_current w)) = instance w).
  { unfold stop_current. now rewrite Hk. }
  rewrite Hi, Nat.eqb_refl. split; reflexivity.
Qed.

Lemma stop_then_callback_witness :
  exists w1 w2 n,
    step PlayClicked
      (world_after (ready_trace ++ [PlayClicked; ResumeSettled 0])) = Some w1
    /\ isPlaying (comp w1) = false
    /\ nth_error (nodes w1) 0 = Some n /\ node_state n = Stopped
    /\ step (SourceEnded 0) w1 = Some w2
    /\ isPlaying (comp w2) = false
    /\ audioSourceRef (comp w2) = None.
Proof.
  refine (stop_then_callback
            (world_after (ready_trace ++ [PlayClicked; ResumeSettled 0])) 0
            _ _ _ _ _ _).
  - exists (ready_trace ++ [PlayClicked; ResumeSettled 0])%list.
    vm_compute. reflexivity.
  - vm_compute. reflexivity.
  - vm_compute. reflexivity.
  - vm_compute. reflexivity.
  - vm_compute. reflexivity.
  - vm_compute. reflexivity.
Defined.

(** C6 fails.  The control is a toggle: after a play that has started,
    a second play request stops the session and starts none, so no session
    is active, none is pending and nothing is bound to a new buffer.  And
    two requests issued before the first has started both start a source:
    two sessions are audible at once. *)
Lemma second_play_stops :
  (exists w,
      run (ready_trace ++ [PlayClicked; ResumeSettled 0; PlayClicked]) initial
      = Some w
      /\ live w = []
      /\ plays w = []
      /\ isPlaying (comp w) = false)
  /\ (exists w,
         run (ready_trace ++ [PlayClicked; PlayClicked;
                              ResumeSettled 0; ResumeSettled 0]) initial
         = Some w
         /\ List.length (live w) = 2).
Proof.
  split.
  - exists (world_after
              (ready_trace ++ [PlayClicked; ResumeSettled 0; PlayClicked])).
    repeat match goal with |- _ /\ _ => split end; vm_compute; reflexivity.
  - exists (world_after
              (ready_trace ++ [PlayClicked; PlayClicked;
                               ResumeSettled 0; ResumeSettled 0])).
    repeat match goal with |- _ /\ _ => split end; vm_compute; reflexivity.
Qed.

(** C6, as the code has it.  The play control is a toggle.  On a
    controller that is idle, with no start pending and nothing audible, a
    play request for the audio [a] results, once the context has resumed,
    in exactly one active session: a source bound to the buffer decoded
    from [a], referenced by [audioSourceRef], with [isPlaying] set.  A
    second request without a stop in between stops that session and
    starts none: nothing is audible, nothing is pending, no source has
    been created. *)
Theorem play_is_a_toggle (w : World) (a : string) (buf : AudioBuffer) :
  mounted w = true ->
  truthy (App.summary (app w)) = true -> App.isLoading (app w) = false ->
  App.summaryAudio (app w) = Some a -> truthy a = true ->
  decoded a = Ok buf ->
  isPlaying (comp w) = false -> plays w = [] -> live w = [] ->
  exists w1 w2,
    run [PlayClicked; ResumeSettled 0] w = Some w1
    /\ isPlaying (comp w1) = true
    /\ audioSourceRef (comp w1) = Some (List.length (nodes w))
    /\ nodes w1 = (nodes w ++ [mkNode buf Playing (instance w)])%list
    /\ live w1 = [mkNode buf Playing (instance w)]
    /\ plays w1 = []
    /\ step PlayClicked w1 = Some w2
    /\ isPlaying (comp w2) = false
    /\ live w2 = []
    /\ plays w2 = []
    /\ List.length (nodes w2) = List.length (nodes w1).
Proof.
  intros Hm Hs Hl Ha Ht Hd Hp Hpl Hlive.
  set (ctx := match audioContextRef (comp w) with
              | Some c => match ctx_state c with
                          | closed => new_AudioContext
                          | _ => c
                          end
              | None => new_AudioContext
              end).
  set (ctx' := mkAudioContext (ctx_sampleRate ctx) running).
  pose proof (decoded_inv a (Ok buf) ctx' Hd) as Hd'.
  destruct (Audio.decode a) as [pcm|] eqn:Edec; [|discriminate].
  set (n := mkNode buf Playing (instance w)).
  set (w1 := mkWorld (app w) (awaiting w)
               (mkComp true (Some ctx') (Some (List.length (nodes w))))
               (instance w) (nodes w ++ [n])%list []).
  assert (R1 : run [PlayClicked; ResumeSettled 0] w = Some w1).
  { cbn [run]. rewrite (step_play_idle w a Hm Hs Hl Ha Ht Hp).
    assert (Hplays : plays (playBuffer a w) = [mkPlay (instance w) ctx a]).
    { unfold playBuffer. fold ctx. cbn [with_plays plays]. now rewrite Hpl. }
    cbn [step]. rewrite Hplays. cbn [nth_error remove_nth].
    rewrite (resumed_ok _ _ pcm buf); [| reflexivity | exact Edec | exact Hd'].
    reflexivity. }
  assert (Hlive1 : live w1 = [n]).
  { unfold live in *. unfold w1. cbn [nodes].
    rewrite filter_app, Hlive. reflexivity. }
  exists w1, (setIsPlaying false (stop_current w1)).
  split; [exact R1|]. split; [reflexivity|]. split; [reflexivity|].
  split; [reflexivity|]. split; [exact Hlive1|]. split; [reflexivity|].
  split; [now apply step_play_playing|]. split; [reflexivity|].
  assert (N2 : nodes (setIsPlaying false (stop_current w1))
               = (nodes w ++ [node_stop n])%list).
  { unfold w1, stop_current.
    cbn [comp audioSourceRef setIsPlaying with_comp with_nodes nodes].
    exact (update_nth_last node_stop (nodes w) n). }
  split.
  - unfold live in *. rewrite N2, filter_app, Hlive. reflexivity.
  - split; [reflexivity|]. rewrite N2. unfold w1. cbn [nodes].
    now rewrite !length_app.
Qed.

Lemma play_is_a_toggle_witness :
  exists w1 w2,
    run [PlayClicked; ResumeSettled 0] (world_after ready_trace) = Some w1
    /\ isPlaying (comp w1) = true
    /\ audioSourceRef (comp w1) = Some 0
    /\ nodes w1
       = [mkNode (mkAudioBuffer 1 2 24000 [[Num 0; Num (-255 # 32768)]])
                 Playing 0]
    /\ live w1
       = [mkNode (mkAudioBuffer 1 2 24000 [[Num 0; Num (-255 # 32768)]])
                 Playing 0]
    /\ plays w1 = []
    /\ step PlayClicked w1 = Some w2
    /\ isPlaying (comp w2) = false
    /\ live w2 = []
    /\ plays w2 = []
    /\ List.length (nodes w2) = List.length (nodes w1).
Proof.
  refine (play_is_a_toggle (world_after ready_trace) "AAAB/w=="
            (mkAudioBuffer 1 2 24000 [[Num 0; Num (-255 # 32768)]])
            _ _ _ _ _ _ _ _ _); vm_compute; reflexivity.
Defined.

(** C8. A failed attempt leaves the results alone.  When a speech
    generation fails, or the decoding of a playback or of a download
    throws, the step leaves the transcription, the summary, the chosen
    file, the generated audio and the view as they were.  The failed
    generation sets the error message and resets the loading flag and
    step; the failed playback and download do not touch the App state at
    all, so no error is shown for them. *)
Theorem failed_attempt_keeps_results (e : Event) (w w' : World) :
  failed_attempt e w -> step e w = Some w' ->
  App.transcription (app w') = App.transcription (app w)
  /\ App.summary (app w') = App.summary (app w)
  /\ App.audioFile (app w') = App.audioFile (app w)
  /\ App.summaryAudio (app w') = App.summaryAudio (app w)
  /\ App.view (app w') = App.view (app w)
  /\ (speech_fails e w ->
      app w' = App.finally
                 (App.setError (Some "Failed to generate speech from summary."%string)
                    (app w)))
  /\ (playback_fails e w \/ download_fails e w -> app w' = app w).
Proof.
  intros Hfail Hstep.
  assert (Hspeech : speech_fails e w ->
            app w' = App.finally
                       (App.setError
                          (Some "Failed to generate speech from summary."%string)
                          (app w))).
  { intros (k & reply & err & -> & Hk & Herr).
    cbn [step] in Hstep. rewrite Hk in Hstep. inversion Hstep; subst w'.
    unfold settle. rewrite app_commit. cbn [with_awaiting with_app app fst].
    destruct reply as [text [audio|]|]; cbn in Herr |- *;
      try (destruct (truthy audio); [discriminate|]); reflexivity. }
  assert (Hother : playback_fails e w \/ download_fails e w -> app w' = app w).
  { intros [(k & p & err & -> & Hk & Herr) | (-> & _)].
    - cbn [step] in Hstep. rewrite Hk in Hstep. inversion Hstep; subst w'.
      unfold playBuffer_resumed.
      pose proof (decoded_inv _ _
                    (mkAudioContext (ctx_sampleRate (play_context p)) running)
                    Herr) as Hd.
      destruct (Audio.decode (play_base64 p)) as [pcm|].
      + rewrite Hd. now destruct (_ =? _)%nat.
      + now destruct (_ =? _)%nat.
    - cbn [step] in Hstep. destruct (_ && _ && _)%bool; now inversion Hstep. }
  assert (Hfields :
            App.transcription (app w') = App.transcription (app w)
            /\ App.summary (app w') = App.summary (app w)
            /\ App.audioFile (app w') = App.audioFile (app w)
            /\ App.summaryAudio (app w') = App.summaryAudio (app w)
            /\ App.view (app w') = App.view (app w)).
  { destruct Hfail as [Hf | Hf];
      [rewrite (Hspeech Hf) | rewrite (Hother Hf)];
      repeat match goal with |- _ /\ _ => split end; reflexivity. }
  destruct Hfields as (F1 & F2 & F3 & F4 & F5).
  repeat match goal with |- _ /\ _ => split end; assumption.
Qed.

Lemma failed_attempt_keeps_results_witness :
  exists w' : World,
    step (ApiSettled 0 Rejects) (world_after generating_trace) = Some w'
    /\ App.transcription (app w') = "transcribed text"%string
    /\ App.summary (app w') = "summary text"%string
    /\ App.error (app w')
       = Some "Failed to generate speech from summary."%string.
Proof.
  set (w' := world_after (generating_trace ++ [ApiSettled 0 Rejects])).
  assert (Hstep : step (ApiSettled 0 Rejects) (world_after generating_trace)
                  = Some w') by (vm_compute; reflexivity).
  assert (Hsp : speech_fails (ApiSettled 0 Rejects)
                  (world_after generating_trace)).
  { exists 0, Rejects,
      (ErrorObject "Failed to generate speech from summary.").
    repeat match goal with |- _ /\ _ => split end; vm_compute; reflexivity. }
  destruct (failed_attempt_keeps_results _ _ _ (or_introl Hsp) Hstep)
    as (Ht & Hs & _ & _ & _ & He & _).
  exists w'. split; [exact Hstep|].
  split; [rewrite Ht; vm_compute; reflexivity|].
  split; [rewrite Hs; vm_compute; reflexivity|].
  rewrite (He Hsp). vm_compute. reflexivity.
Defined.

End Playback.

(** ** More on [utils/audio.ts] *)

Section AudioMore.
Import Js Audio Format Measure.

Lemma decode_of_atob (s : string) (bs : list byte) :
  atob s = Ok (string_of_list_byte bs) -> decode s = Ok (Uint8Array_of bs).
Proof.
  intros E. unfold decode. rewrite E. cbn [bind].
  rewrite length_string_of_list_byte.
  pose proof (decode_loop bs [] (List.length bs) eq_refl) as L.
  cbn [List.length app] in L. unfold new_Uint8Array, new_ArrayBuffer.
  now rewrite L.
Qed.

(** [decode] is [atob] followed by a faithful copy: the array it returns
    spans a fresh buffer that holds the decoded bytes, one per character of
    the binary string, and it throws exactly when [atob] does. *)
Theorem decode_copies_atob (s : string) :
  match forgiving_base64_decode (list_ascii_of_string s) with
  | Some bs =>
      atob s = Ok (string_of_list_byte bs)
      /\ decode s = Ok (Uint8Array_of bs)
  | None =>
      atob s = Throw InvalidCharacterError
      /\ decode s = Throw InvalidCharacterError
  end.
Proof.
  destruct (forgiving_base64_decode (list_ascii_of_string s)) as [bs|] eqn:E.
  - assert (A : atob s = Ok (string_of_list_byte bs))
      by (unfold atob; now rewrite E).
    split; [exact A | now apply decode_of_atob].
  - assert (A : atob s = Throw InvalidCharacterError)
      by (unfold atob; now rewrite E).
    split; [exact A|]. unfold decode. now rewrite A.
Qed.

Lemma strip_padding_In (c : ascii) (l : list ascii) :
  In c l -> is_pad c = false -> In c (strip_padding l).
Proof.
  intros Hin Hc. induction l as [|x l IH]; [contradiction|].
  cbn [strip_padding].
  destruct l as [|d [|e l]].
  - destruct Hin as [->|[]]. rewrite Hc. now left.
  - destruct Hin as [->|Hin].
    + rewrite Hc. cbn [andb]. now left.
    + destruct (is_pad x && is_pad d)%bool eqn:P.
      * destruct Hin as [->|[]]. apply andb_true_iff in P. destruct P. congruence.
      * right. now apply IH.
  - destruct Hin as [->|Hin]; [now left | right; now apply IH].
Qed.

Lemma sextets_None (c : ascii) (l : list ascii) :
  In c l -> base64_index c = None -> sextets l = None.
Proof.
  intros Hin Hc. induction l as [|x l IH]; [contradiction|].
  cbn [sextets]. destruct Hin as [->|Hin].
  - now rewrite Hc.
  - rewrite (IH Hin). now destruct (base64_index x).
Qed.

(** A character that is neither of the base64 alphabet, nor ASCII
    whitespace, nor [=], anywhere in the string, makes [decode] throw an
    [InvalidCharacterError]. *)
Theorem decode_rejects_foreign_character (s : string) (c : ascii) :
  In c (list_ascii_of_string s) ->
  base64_index c = None -> is_ascii_whitespace c = false -> is_pad c = false ->
  decode s = Throw InvalidCharacterError.
Proof.
  intros Hin Hi Hw Hp.
  assert (E : forgiving_base64_decode (list_ascii_of_string s) = None).
  { unfold forgiving_base64_decode.
    set (d := filter _ _).
    assert (Hd : In c d).
    { apply filter_In. split; [exact Hin | now rewrite Hw]. }
    set (d' := if (List.length d mod 4 =? 0)%nat then strip_padding d else d).
    assert (Hd' : In c d').
    { subst d'. destruct (_ =? _)%nat; [now apply strip_padding_In | exact Hd]. }
    destruct (_ =? 1)%nat; [reflexivity|].
    now rewrite (sextets_None c d' Hd' Hi). }
  pose proof (decode_copies_atob s) as D. rewrite E in D. apply D.
Qed.

Lemma decode_rejects_foreign_character_witness :
  decode "AA!A" = Throw InvalidCharacterError.
Proof.
  apply (decode_rejects_foreign_character "AA!A" "!"%char).
  - cbn. tauto.
  - reflexivity.
  - reflexivity.
  - reflexivity.
Defined.

Lemma list_ind4 (A : Type) (P : list A -> Prop) :
  P [] -> (forall a, P [a]) -> (forall a b, P [a; b]) ->
  (forall a b c, P [a; b; c]) ->
  (forall a b c d l, P l -> P (a :: b :: c :: d :: l)) ->
  forall l, P l.
Proof.
  intros H0 H1 H2 H3 H4.
  assert (H : forall l, P l /\ (forall a, P (a :: l))
                        /\ (forall a b, P (a :: b :: l))
                        /\ (forall a b c, P (a :: b :: c :: l))).
  { induction l as [|x l (I0 & I1 & I2 & I3)]; repeat split; auto. }
  intros l. apply H.
Qed.

Lemma bytes_of_sextets_length (l : list Z) :
  (List.length l mod 4 <> 1)%nat ->
  List.length (bytes_of_sextets l) = (3 * List.length l / 4)%nat.
Proof.
  induction l as [| a | a b | a b c | a b c d l IH] using list_ind4;
    intros H; try reflexivity.
  cbn [List.length] in H. rewrite mod4_add4 in H.
  cbn [bytes_of_sextets List.length]. rewrite (IH H).
  replace (3 * S (S (S (S (List.length l)))))%nat
    with (3 * 4 + 3 * List.length l)%nat by lia.
  rewrite Nat.div_add_l by lia. reflexivity.
Qed.

Lemma sextets_length (l : list ascii) (vs : list Z) :
  sextets l = Some vs -> List.length vs = List.length l.
Proof.
  revert vs. induction l as [|c l IH]; intros vs H; cbn [sextets] in H.
  - now inversion H.
  - destruct (base64_index c); [|discriminate].
    destruct (sextets l) as [vs'|]; [|discriminate].
    inversion H; subst. cbn. now rewrite (IH vs' eq_refl).
Qed.

Lemma strip_padding_length (l : list ascii) :
  (List.length (strip_padding l) <= List.length l)%nat.
Proof.
  induction l as [|x l IH]; [reflexivity|].
  cbn [strip_padding]. destruct l as [|d [|e l]].
  - destruct (is_pad x); cbn; lia.
  - destruct (is_pad x && is_pad d)%bool; cbn [List.length] in *; lia.
  - cbn [List.length] in *. lia.
Qed.

Lemma length_list_ascii_of_string (s : string) :
  List.length (list_ascii_of_string s) = String.length s.
Proof. induction s; cbn; auto. Qed.

Lemma filter_length_bound {A} (f : A -> bool) (l : list A) :
  (List.length (filter f l) <= List.length l)%nat.
Proof.
  induction l as [|x l IH]; cbn; [lia|]. destruct (f x); cbn; lia.
Qed.

Lemma significant_length (s : string) :
  (List.length (significant s) <= String.length s)%nat.
Proof.
  unfold significant.
  pose proof (filter_length_bound
                (fun c => negb (is_ascii_whitespace c))
                (list_ascii_of_string s)) as F.
  rewrite length_list_ascii_of_string in F.
  destruct (_ =? _)%nat; [|exact F].
  eapply Nat.le_trans; [apply strip_padding_length | exact F].
Qed.

(** The size of what [decode] returns: three bytes for every four
    significant characters, the count rounded down, so never more than
    three quarters of the length of the string; the array starts at offset
    0 of a buffer of exactly that size. *)
Theorem decode_length (s : string) (arr : Uint8Array) :
  decode s = Ok arr ->
  length arr = (3 * List.length (significant s) / 4)%nat
  /\ (4 * length arr <= 3 * String.length s)%nat
  /\ byteOffset arr = 0%nat
  /\ List.length (buffer arr) = length arr.
Proof.
  intros H. pose proof (decode_copies_atob s) as D.
  assert (F : forgiving_base64_decode (list_ascii_of_string s)
              = if (List.length (significant s) mod 4 =? 1)%nat then None
                else option_map bytes_of_sextets (sextets (significant s)))
    by reflexivity.
  rewrite F in D.
  destruct (Nat.eqb_spec (List.length (significant s) mod 4) 1) as [|Hm].
  { destruct D as (_ & D). congruence. }
  destruct (sextets (significant s)) as [vs|] eqn:Hv; cbn [option_map] in D.
  2:{ destruct D as (_ & D). congruence. }
  destruct D as (_ & D). rewrite D in H. inversion H; subst arr.
  unfold Uint8Array_of. cbn [length byteOffset buffer].
  pose proof (sextets_length _ _ Hv) as Lv.
  assert (L : List.length (bytes_of_sextets vs)
              = (3 * List.length (significant s) / 4)%nat).
  { rewrite bytes_of_sextets_length by now rewrite Lv. now rewrite Lv. }
  split; [exact L|]. split; [|split; reflexivity].
  rewrite L. pose proof (significant_length s) as S.
  pose proof (Nat.Div0.mul_div_le (3 * List.length (significant s)) 4). lia.
Qed.

Lemma decode_length_witness :
  exists arr : Uint8Array,
    decode "AAAB/w==" = Ok arr /\ length arr = 4%nat.
Proof.
  exists (Uint8Array_of [x00; x00; x01; xff]).
  split; [reflexivity|].
  exact (proj1 (decode_length "AAAB/w=="
                  (Uint8Array_of [x00; x00; x01; xff]) eq_refl)).
Defined.

Lemma ToUint8_ascii (c : ascii) :
  ToUint8 (Z.of_N (N_of_ascii c)) = byte_of_ascii c.
Proof. destruct c as [[|] [|] [|] [|] [|] [|] [|] [|]]; reflexivity. Qed.

Lemma get_list_ascii (s : string) (i : nat) :
  String.get i s = nth_error (list_ascii_of_string s) i.
Proof.
  revert i. induction s as [|c s IH]; intros [|i]; cbn; auto.
Qed.

Lemma charCodeAt_nth (s : string) (i : nat) :
  charCodeAt s i
  = option_map (fun c => Z.of_N (N_of_ascii c))
               (nth_error (list_ascii_of_string s) i).
Proof. unfold charCodeAt. now rewrite get_list_ascii. Qed.

Lemma length_overwrite (bs buf : list byte) :
  List.length (overwrite bs buf) = List.length buf.
Proof.
  revert buf. induction bs as [|b bs IH]; intros [|x buf]; cbn; auto.
Qed.

Lemma length_write_at (off : nat) (bs buf : list byte) :
  List.length (write_at off bs buf) = List.length buf.
Proof.
  revert buf. induction off as [|off IH]; intros buf.
  - destruct buf; apply length_overwrite.
  - destruct buf as [|x buf]; cbn; auto.
Qed.

Lemma setUint8_app (pre : list byte) (x : byte) (post : list byte)
      (off : nat) (v : Z) :
  off = List.length pre ->
  setUint8 off v (pre ++ x :: post)%list
  = Ok (tt, (pre ++ ToUint8 v :: post)%list).
Proof.
  intros ->. unfold setUint8, dv_store.
  rewrite write_at_app, length_app. cbn [List.length overwrite].
  destruct (Nat.leb_spec (List.length pre + 1)
              (List.length pre + S (List.length post))); [reflexivity | lia].
Qed.

(** The loop of [writeString] with room for the characters left. *)
Lemma writeString_loop (s : string) (off : nat) (pre post : list byte) :
  off = List.length pre ->
  forall (todo done : list ascii) (old : list byte),
    list_ascii_of_string s = (done ++ todo)%list ->
    List.length old = List.length todo ->
    dv_for (List.length todo) (List.length done)
      (fun i => setUint8 (off + i) (number_of (charCodeAt s i)))
      (pre ++ map byte_of_ascii done ++ old ++ post)%list
    = Ok (tt, (pre ++ map byte_of_ascii (done ++ todo) ++ post)%list).
Proof.
  intros ->. induction todo as [|c todo IH]; intros done old E Hold.
  - destruct old; [|discriminate]. cbn. now rewrite app_nil_r.
  - destruct old as [|o old]; [discriminate|].
    assert (E' : list_ascii_of_string s = ((done ++ [c]) ++ todo)%list)
      by now rewrite <- app_assoc.
    specialize (IH (done ++ [c])%list old E' ltac:(cbn in Hold; lia)).
    rewrite length_app, Nat.add_1_r, map_app, <- !app_assoc in IH.
    cbn [List.length map app] in IH.
    cbn [List.length dv_for]. unfold dv_bind at 1. cbv beta.
    rewrite (app_assoc pre). cbn [app].
    rewrite (setUint8_app (pre ++ map byte_of_ascii done) o (old ++ post))
      by (now rewrite length_app, length_map).
    rewrite charCodeAt_nth, E, nth_error_app2, Nat.sub_diag by lia.
    cbn [nth_error option_map number_of]. rewrite ToUint8_ascii.
    rewrite <- app_assoc. exact IH.
Qed.

(** The loop of [writeString] without room for the characters left. *)
Lemma writeString_overrun (s : string) (off : nat) :
  forall (n i : nat) (buf : list byte),
    (0 < n)%nat -> (List.length buf < off + i + n)%nat ->
    dv_for n i (fun i => setUint8 (off + i) (number_of (charCodeAt s i))) buf
    = Throw RangeError.
Proof.
  induction n as [|n IH]; intros i buf Hn Hlen; [lia|].
  cbn [dv_for]. unfold dv_bind at 1. unfold setUint8 at 1, dv_store.
  cbn [List.length].
  destruct (Nat.leb_spec (off + i + 1) (List.length buf)) as [Hin|Hout];
    [|reflexivity].
  apply IH; [lia|]. rewrite length_write_at. lia.
Qed.

(** [writeString] puts the character codes of the string into the bytes
    from [offset] on and leaves every other byte, and the size, as they
    were; when the string does not fit before the end of the buffer it
    throws a [RangeError]. *)
Theorem writeString_bytes (offset : nat) (s : string) (buf : ArrayBuffer) :
  ((offset + String.length s <= List.length buf)%nat ->
   writeString offset s buf
   = Ok (tt, (firstn offset buf ++ list_byte_of_string s
              ++ skipn (offset + String.length s) buf)%list))
  /\ ((0 < String.length s)%nat ->
      (List.length buf < offset + String.length s)%nat ->
      writeString offset s buf = Throw RangeError).
Proof.
  split.
  - intros Hfit. unfold writeString.
    pose proof (writeString_loop s offset (firstn offset buf)
                  (skipn (offset + String.length s) buf)) as L.
    specialize (L ltac:(rewrite firstn_length_le; lia)
                  (list_ascii_of_string s) []
                  (firstn (String.length s) (skipn offset buf)) eq_refl).
    rewrite length_list_ascii_of_string in L.
    specialize (L ltac:(rewrite firstn_length_le;
                        [reflexivity | rewrite length_skipn; lia])).
    cbn [List.length map app] in L.
    replace (firstn offset buf
             ++ firstn (String.length s) (skipn offset buf)
             ++ skipn (offset + String.length s) buf)%list with buf in L.
    + exact L.
    + rewrite <- (firstn_skipn offset buf) at 1. f_equal.
      rewrite <- (firstn_skipn (String.length s) (skipn offset buf)) at 1.
      f_equal. rewrite skipn_skipn. f_equal. lia.
  - intros Hpos Hlen. unfold writeString.
    apply writeString_overrun; lia.
Qed.

Lemma writeString_bytes_witness :
  writeString 2 "ab" [x00; x01; x02; x03; x04]
  = Ok (tt, [x00; x01; x61; x62; x04])
  /\ writeString 4 "ab" [x00; x01; x02; x03; x04] = Throw RangeError.
Proof.
  destruct (writeString_bytes 2 "ab" [x00; x01; x02; x03; x04]) as (A & _).
  destruct (writeString_bytes 4 "ab" [x00; x01; x02; x03; x04]) as (_ & B).
  split.
  - apply A. cbn. lia.
  - apply B; cbn; lia.
Defined.

(** [decodePcmData] reads the buffer under the array, not the window of
    the array: an array over an even buffer of at least two bytes is decoded
    into half as many frames as the buffer has bytes, whatever its offset
    and length, so an odd-length window is not rejected and bytes outside
    the window become frames; an array over an odd buffer is rejected
    whatever its own length. *)
Theorem decodePcmData_reads_buffer (arr : Uint8Array) (ctx : AudioContext) :
  decodePcmData arr ctx = decodePcmData (Uint8Array_of (buffer arr)) ctx
  /\ ((List.length (buffer arr) mod 2 = 0)%nat ->
      (2 <= List.length (buffer arr))%nat ->
      decodePcmData arr ctx
      = Ok (mkAudioBuffer 1 (List.length (buffer arr) / 2) 24000
              [map (fun s => Num (Qred (s # 32768)))
                   (samples_le (buffer arr))]))
  /\ ((List.length (buffer arr) mod 2 = 1)%nat ->
      decodePcmData arr ctx = Throw RangeError).
Proof.
  split; [reflexivity|]. split.
  - intros He Hl.
    change (decodePcmData arr ctx)
      with (decodePcmData (Uint8Array_of (buffer arr)) ctx).
    now apply decodePcmData_eq.
  - intros Ho. unfold decodePcmData, new_Int16Array. now rewrite Ho.
Qed.

(** A window of one byte over four: two frames come out. *)
Lemma decodePcmData_reads_buffer_witness :
  decodePcmData (mkUint8Array [x00; x80; xff; x7f] 1 1)
                (mkAudioContext 24000 running)
  = Ok (mkAudioBuffer 1 2 24000 [[Num (-1); Num (32767 # 32768)]])
  /\ decodePcmData (mkUint8Array [x00; x80; xff] 0 2)
                   (mkAudioContext 24000 running)
     = Throw RangeError.
Proof.
  destruct (decodePcmData_reads_buffer
              (mkUint8Array [x00; x80; xff; x7f] 1 1)
              (mkAudioContext 24000 running)) as (_ & A & _).
  destruct (decodePcmData_reads_buffer
              (mkUint8Array [x00; x80; xff] 0 2)
              (mkAudioContext 24000 running)) as (_ & _ & B).
  split.
  - apply A; cbn; lia.
  - apply B. reflexivity.
Defined.

Lemma samples_le_In (pcm : list byte) (s : Z) :
  In s (samples_le pcm) -> exists lo hi, s = int16_le lo hi.
Proof.
  induction pcm as [| a | a b l IH] using list_ind2; cbn [samples_le];
    try contradiction.
  intros [<-|H]; [now exists a, b | now apply IH].
Qed.

(** Whatever [decodePcmData] returns holds numbers only, never [NaN]:
    every sample of every channel is a rational between [-1] and
    [32767/32768], and one that binary32 represents exactly. *)
Theorem decodePcmData_samples_in_range
        (arr : Uint8Array) (ctx : AudioContext) (b : AudioBuffer) :
  decodePcmData arr ctx = Ok b ->
  forall data v, In data (channelData b) -> In v data ->
    exists q : Q,
      v = Num q
      /\ (-1 <= q <= 32767 # 32768)%Q
      /\ binary32_value q.
Proof.
  intros H data v Hdata Hv.
  destruct (decodePcmData_reads_buffer arr ctx) as (_ & Heven & Hodd).
  pose proof (Nat.mod_upper_bound (List.length (buffer arr)) 2 ltac:(lia))
    as Hm.
  destruct (List.length (buffer arr) mod 2)%nat as [|[|m]] eqn:Em; [| |lia].
  - destruct (le_lt_dec 2 (List.length (buffer arr))) as [Hl|Hl].
    + rewrite Heven in H by (reflexivity || exact Hl).
      injection H as <-. cbn [channelData] in Hdata.
      destruct Hdata as [<-|[]].
      apply in_map_iff in Hv. destruct Hv as (s & <- & Hs).
      apply samples_le_In in Hs. destruct Hs as (lo & hi & ->).
      eexists. split; [reflexivity|]. split.
      * apply sample_range.
      * apply decodePcmData_samples_binary32.
    + assert (Eb : buffer arr = []).
      { destruct (buffer arr) as [|x [|y l]]; [reflexivity | discriminate |].
        cbn in Hl. lia. }
      unfold decodePcmData in H. rewrite Eb in H. discriminate.
  - rewrite Hodd in H by reflexivity. discriminate.
Qed.

Lemma decodePcmData_samples_in_range_witness :
  exists q : Q,
    Num (-1) = Num q /\ (-1 <= q <= 32767 # 32768)%Q /\ binary32_value q.
Proof.
  apply (decodePcmData_samples_in_range
           (Uint8Array_of [x00; x80; xff; x7f])
           (mkAudioContext 24000 running)
           (mkAudioBuffer 1 2 24000 [[Num (-1); Num (32767 # 32768)]])
           eq_refl
           [Num (-1); Num (32767 # 32768)]).
  - now left.
  - now left.
Defined.

End AudioMore.

(** ** Download and playback of the generated audio *)

Section Pipeline.
Import Js GeminiService Summarizer Invariant Scenario Format Reference.

Lemma truthy_base64Encode (bytes : list byte) :
  bytes <> [] -> truthy (base64Encode bytes) = true.
Proof.
  intros H. unfold base64Encode.
  destruct bytes as [|a [|b [|c rest]]]; [contradiction | | |]; reflexivity.
Qed.

Lemma decode_base64Encode_eq (bytes : list byte) :
  Audio.decode (base64Encode bytes) = Ok (Uint8Array_of bytes).
Proof. apply decode_of_atob, atob_base64Encode. Qed.

(** "Download Audio" with audio at hand: when the audio decodes, what is
    saved is a blob of type [audio/wav] made of the 44-byte header for the
    decoded size followed by the decoded bytes, and producing it cannot
    fail; when the audio does not decode, nothing is saved.  For audio that
    is the base64 encoding of a non-empty byte sequence, the file is the
    header followed by those very bytes. *)
Theorem handleDownload_saves_wav (w : World) (a : string) :
  App.summaryAudio (app w) = Some a -> truthy a = true ->
  match Audio.decode a with
  | Ok pcmData =>
      handleDownload w
      = Some (mkBlob (wav_header (length pcmData) ++ buffer pcmData)
                     "audio/wav")
  | Throw _ => handleDownload w = None
  end
  /\ forall bytes : list byte,
       a = base64Encode bytes ->
       handleDownload w
       = Some (mkBlob (wav_header (List.length bytes) ++ bytes) "audio/wav").
Proof.
  intros Ha Ht.
  assert (G : forall bs, Audio.decode a = Ok (Uint8Array_of bs) ->
                handleDownload w
                = Some (mkBlob (wav_header (List.length bs) ++ bs) "audio/wav")).
  { intros bs E. unfold handleDownload. rewrite Ha, Ht, E.
    rewrite createWavBlob_eq by apply u8_wf_of.
    now rewrite u8_elements_of. }
  split.
  - pose proof (decode_copies_atob a) as D.
    destruct (forgiving_base64_decode (list_ascii_of_string a)) as [bs|].
    + destruct D as (_ & D). rewrite D. now apply G.
    + destruct D as (_ & D). rewrite D. unfold handleDownload.
      now rewrite Ha, Ht, D.
  - intros bytes ->. apply G, decode_base64Encode_eq.
Qed.

Lemma handleDownload_saves_wav_witness :
  handleDownload (world_after ready_trace)
  = Some (mkBlob (wav_header 4 ++ [x00; x00; x01; xff]) "audio/wav").
Proof.
  destruct (handleDownload_saves_wav (world_after ready_trace) "AAAB/w=="
              eq_refl eq_refl) as (_ & H).
  apply (H [x00; x00; x01; xff]). reflexivity.
Defined.

(** What [playBuffer] decodes from audio that is the base64 encoding of a
    PCM byte sequence: for an even, non-empty sequence the buffer of its
    little-endian samples over 32768; for an odd one a [RangeError]; for
    the empty one a [NotSupportedError]. *)
Theorem decoded_of_encoded (pcm : list byte) :
  ((List.length pcm mod 2 = 0)%nat -> (2 <= List.length pcm)%nat ->
   decoded (base64Encode pcm)
   = Ok (mkAudioBuffer 1 (List.length pcm / 2) 24000
           [map (fun s => Num (Qred (s # 32768))) (samples_le pcm)]))
  /\ ((List.length pcm mod 2 = 1)%nat ->
      decoded (base64Encode pcm) = Throw RangeError)
  /\ (pcm = [] -> decoded (base64Encode pcm) = Throw NotSupportedError).
Proof.
  unfold decoded. rewrite decode_base64Encode_eq. cbn [bind].
  split; [|split].
  - intros He Hl. now apply decodePcmData_eq.
  - intros Ho. unfold Audio.decodePcmData, Uint8Array_of, new_Int16Array.
    cbn [buffer]. now rewrite Ho.
  - intros ->. reflexivity.
Qed.

Lemma decoded_of_encoded_witness :
  decoded (base64Encode [x00; x80; xff; x7f])
  = Ok (mkAudioBuffer 1 2 24000 [[Num (-1); Num (32767 # 32768)]])
  /\ decoded (base64Encode [x00; x80; xff]) = Throw RangeError.
Proof.
  destruct (decoded_of_encoded [x00; x80; xff; x7f]) as (A & _).
  destruct (decoded_of_encoded [x00; x80; xff]) as (_ & B & _).
  split.
  - apply A; cbn; lia.
  - apply B. reflexivity.
Defined.

End Pipeline.

(** ** More on the App and the playback component *)

Section Controller.
Import Js GeminiService Summarizer Invariant Scenario.

Lemma awaiting_stop_current (w : World) : awaiting (stop_current w) = awaiting w.
Proof. unfold stop_current. now destruct (audioSourceRef (comp w)). Qed.

Lemma awaiting_autoplay_effect (b : bool) (w : World) :
  awaiting (autoplay_effect b w) = awaiting w.
Proof.
  unfold autoplay_effect, playSummaryAudio, truthy_option.
  destruct (App.summaryAudio (app w)) as [a|]; [|reflexivity].
  destruct (truthy a); [|reflexivity].
  destruct (App.isLoading (app w)); [|reflexivity].
  destruct (String.eqb _ _); [|reflexivity]. cbn [andb].
  destruct (negb _); [reflexivity|].
  destruct b; [|reflexivity].
  cbn [setIsPlaying with_comp awaiting]. apply awaiting_stop_current.
Qed.

Lemma awaiting_audioFile_effect (b : bool) (w : World) :
  awaiting (audioFile_effect b w) = awaiting w.
Proof.
  unfold audioFile_effect. destruct b; [|reflexivity].
  cbn [setIsPlaying with_comp awaiting]. apply awaiting_stop_current.
Qed.

Lemma awaiting_commit (r : App.State) (w : World) :
  awaiting (commit r w) = awaiting w.
Proof.
  unfold commit. destruct (mounted w); [|reflexivity].
  destruct (same_file _ _), (_ && _ && _)%bool;
    rewrite ?awaiting_autoplay_effect, ?awaiting_audioFile_effect; reflexivity.
Qed.

(** [one_at_a_time] reads the App state and the suspended calls only. *)
Lemma one_at_a_time_fields (w w' : World) :
  App.isLoading (app w') = App.isLoading (app w) ->
  App.loadingStep (app w') = App.loadingStep (app w) ->
  App.summary (app w') = App.summary (app w) ->
  App.summaryAudio (app w') = App.summaryAudio (app w) ->
  awaiting w' = awaiting w ->
  one_at_a_time w -> one_at_a_time w'.
Proof. unfold one_at_a_time. intros -> -> -> -> ->. auto. Qed.

Lemma one_at_a_time_ext (w w' : World) :
  app w' = app w -> awaiting w' = awaiting w ->
  one_at_a_time w -> one_at_a_time w'.
Proof. intros E. apply one_at_a_time_fields; now rewrite E. Qed.

Lemma one_at_a_time_commit (r : App.State) (w : World) :
  one_at_a_time w -> one_at_a_time (commit r w).
Proof.
  apply one_at_a_time_ext; [apply app_commit | apply awaiting_commit].
Qed.

Ltac shapes H Ea :=
  let H1 := fresh "H1" in
  let H2 := fresh "H2" in
  destruct H as (H1 & H2);
  match type of H1 with
  | match awaiting ?w with _ => _ end =>
      destruct (awaiting w) as [|[| |] [|? ?]] eqn:Ea;
      try contradiction
  end.

Lemma one_at_a_time_step (e : Event) (w w' : World) :
  one_at_a_time w -> step e w = Some w' -> one_at_a_time w'.
Proof.
  intros H Hstep. destruct e; cbn [step] in Hstep.
  - (* FileChosen *)
    destruct (mounted w && negb (App.isLoading (app w)))%bool eqn:G;
      inversion Hstep; subst w'. clear Hstep.
    apply andb_true_iff in G. destruct G as (_ & G).
    apply negb_true_iff in G.
    apply one_at_a_time_commit. unfold one_at_a_time in *.
    cbn [with_app app awaiting].
    shapes H Ea; try (destruct H1 as (H1 & _); congruence).
    destruct H1 as (L1 & L2). unfold App.handleFileChange.
    destruct file as [f|]; [destruct (String.prefix _ _)|];
      cbn; (split; [split; assumption|]); try discriminate; exact H2.
  - (* ProcessClicked *)
    destruct (mounted w && negb (App.isLoading (app w))
              && match App.audioFile (app w) with
                 | Some _ => true
                 | None => false
                 end)%bool eqn:G;
      inversion Hstep; subst w'. clear Hstep.
    apply andb_true_iff in G. destruct G as (G & Gf).
    apply andb_true_iff in G. destruct G as (_ & G).
    apply negb_true_iff in G.
    apply one_at_a_time_commit. unfold one_at_a_time in *.
    cbn [with_app with_awaiting app awaiting].
    shapes H Ea; try (destruct H1 as (H1 & _); congruence).
    unfold App.processAudio.
    destruct (App.audioFile (app w)); [|discriminate].
    cbn. repeat split; discriminate.
  - (* PlayClicked *)
    destruct (mounted w && truthy (App.summary (app w))
              && negb (App.isLoading (app w)
                       && (App.loadingStep (app w) =? "Generating speech..."))%string)%bool
      eqn:G; inversion Hstep; subst w'. clear Hstep.
    apply andb_true_iff in G. destruct G as (G & Gl).
    apply andb_true_iff in G. destruct G as (_ & Gs).
    apply negb_true_iff in Gl.
    apply one_at_a_time_commit. unfold playSummaryAudio. rewrite Gs.
    cbn [negb].
    destruct (isPlaying (comp w)).
    { revert H. apply one_at_a_time_ext;
        [apply app_stop_current | apply awaiting_stop_current]. }
    assert (Gen : one_at_a_time (onGenerateSpeech w)).
    { unfold onGenerateSpeech, App.handleGenerateSpeech. rewrite Gs.
      cbn [negb]. unfold one_at_a_time in *.
      cbn [with_app with_awaiting app awaiting].
      shapes H Ea.
      - cbn. split; [|exact H2]. repeat split. exact Gs.
      - destruct H1 as (_ & _ & Hs & _). rewrite Hs in Gs. discriminate.
      - destruct H1 as (_ & _ & Hs & _). rewrite Hs in Gs. discriminate.
      - destruct H1 as (Hl & Hst & _). rewrite Hl, Hst in Gl. discriminate. }
    destruct (App.summaryAudio (app w)) as [a|]; [destruct (truthy a)|];
      [exact H | exact Gen | exact Gen].
  - (* DownloadClicked *)
    destruct (_ && _ && _)%bool; inversion Hstep; subst. exact H.
  - (* ViewSelected *)
    inversion Hstep; subst w'. clear Hstep.
    revert H. apply one_at_a_time_fields; unfold selectView;
      destruct (App.view (app w)), v; try reflexivity;
      rewrite ?app_autoplay_effect, ?app_audioFile_effect,
        ?awaiting_autoplay_effect, ?awaiting_audioFile_effect;
      try reflexivity.
    cbn [with_instance with_comp with_app awaiting].
    unfold unmount_cleanup. apply awaiting_stop_current.
  - (* FileReadFailed *)
    destruct (nth_error (awaiting w) k) as [[| |]|] eqn:Ek;
      inversion Hstep; subst w'. clear Hstep.
    unfold settle. apply one_at_a_time_commit. unfold one_at_a_time in *.
    cbn [with_app with_awaiting app awaiting fst snd
         App.processAudio_transcribed].
    shapes H Ea; destruct k as [|[|k]]; cbn in Ek; try discriminate.
    destruct H1 as (_ & _ & Hs & Ha).
    cbn. rewrite Ha. repeat split; discriminate.
  - (* ApiSettled *)
    destruct (nth_error (awaiting w) k) as [[| |]|] eqn:Ek;
      inversion Hstep; subst w'; clear Hstep;
      unfold settle; apply one_at_a_time_commit; unfold one_at_a_time in *;
      cbn [with_app with_awaiting app awaiting fst snd];
      shapes H Ea; destruct k as [|[|k]]; cbn in Ek; try discriminate.
    + destruct H1 as (Hl & _ & Hs & Ha).
      destruct reply as [text data|]; cbn; rewrite ?Ha, ?Hl, ?Hs;
        repeat split; try discriminate; reflexivity.
    + destruct H1 as (Hl & _ & Hs & Ha).
      destruct reply as [text data|]; cbn; rewrite ?Ha;
        repeat split; discriminate.
    + destruct H1 as (Hl & _ & Hs).
      unfold generateSpeech.
      destruct reply as [text [data|]|];
        [destruct (truthy data) eqn:Td| |]; cbn.
      * split; [split; reflexivity|].
        intros x Hx. inversion Hx; subst x. now split.
      * split; [split; reflexivity | exact H2].
      * split; [split; reflexivity | exact H2].
      * split; [split; reflexivity | exact H2].
  - (* ResumeSettled *)
    destruct (nth_error (plays w) k) as [p|]; inversion Hstep; subst w'.
    clear Hstep. revert H.
    apply one_at_a_time_ext; unfold playBuffer_resumed;
      cbn [with_plays instance];
      destruct (_ =? _)%nat;
      destruct (Audio.decode _); try reflexivity;
      destruct (Audio.decodePcmData _ _); try reflexivity;
      cbn [with_nodes instance]; try rewrite Nat.eqb_refl;
      try destruct (_ =? _)%nat; reflexivity.
  - (* SourceEnded *)
    destruct (nth_error (nodes w) k) as [n|]; [|discriminate].
    unfold onended in Hstep. cbn [with_nodes instance] in Hstep.
    revert H. apply one_at_a_time_ext;
      destruct (node_state n); inversion Hstep; subst;
      destruct (_ =? _)%nat; reflexivity.
Qed.

Lemma reachable_one_at_a_time (w : World) : reachable w -> one_at_a_time w.
Proof.
  apply reachable_invariant.
  - unfold one_at_a_time. cbn. repeat split; discriminate.
  - intros e w0 w1. apply one_at_a_time_step.
Qed.

(** The App runs one asynchronous handler at a time: in every reachable
    world at most one call is suspended, the loading flag is set exactly
    while one is, an idle App has an empty loading step, and generated
    audio, when there is any, is a non-empty string kept only while the
    summary it was generated for is shown. *)
Theorem app_runs_one_handler_at_a_time (w : World) :
  reachable w ->
  (List.length (awaiting w) <= 1)%nat
  /\ (App.isLoading (app w) = true <-> awaiting w <> [])
  /\ (App.isLoading (app w) = false -> App.loadingStep (app w) = ""%string)
  /\ (forall a, App.summaryAudio (app w) = Some a ->
                truthy a = true /\ truthy (App.summary (app w)) = true).
Proof.
  intros H%reachable_one_at_a_time. unfold one_at_a_time in H.
  destruct H as (H1 & H2).
  split; [|split; [|split; [|exact H2]]];
    destruct (awaiting w) as [|[| |] [|? ?]]; try contradiction;
    cbn [List.length]; try lia;
    try (destruct H1 as (Hl & Hs); rewrite ?Hl, ?Hs);
    try (split; congruence); try congruence.
  all: try (destruct Hs as (Hs & _); congruence).
Qed.

Lemma app_runs_one_handler_at_a_time_witness :
  (List.length (awaiting (world_after generating_trace)) <= 1)%nat
  /\ (App.isLoading (app (world_after generating_trace)) = true
      <-> awaiting (world_after generating_trace) <> []).
Proof.
  destruct (app_runs_one_handler_at_a_time (world_after generating_trace))
    as (A & B & _).
  - exists generating_trace. vm_compute. reflexivity.
  - split; [exact A | exact B].
Defined.

Lemma autoplay_effect_off (b : bool) (w : World) :
  App.isLoading (app w) = false
  \/ truthy_option (App.summaryAudio (app w)) = false ->
  autoplay_effect b w = w.
Proof.
  unfold autoplay_effect. intros [H|H]; rewrite H;
    [now destruct (truthy_option _) | reflexivity].
Qed.

(** A render in which the file is the same and the App is idle or has no
    audio runs no effect. *)
Lemma commit_quiet (r : App.State) (w : World) :
  same_file (App.audioFile r) (App.audioFile (app w)) = true ->
  App.isLoading (app w) = false
  \/ truthy_option (App.summaryAudio (app w)) = false ->
  commit r w = w.
Proof.
  intros Hf Ha. unfold commit. rewrite Hf.
  rewrite (autoplay_effect_off _ w Ha).
  destruct (mounted w); [|reflexivity]. now destruct (_ && _ && _)%bool.
Qed.

(** Generated audio does not start by itself.  The effect that was to play
    it never does anything in a reachable world; in particular the task in
    which a speech generation settles, with audio or with an error, leaves
    the controller, the nodes and the pending plays as they were: the audio
    plays only when the control is used again. *)
Theorem generated_audio_does_not_autoplay (w : World) :
  reachable w ->
  (forall b : bool, autoplay_effect b w = w)
  /\ (forall (k : nat) (reply : ApiReply) (w' : World),
        nth_error (awaiting w) k = Some App.AwaitSpeech ->
        step (ApiSettled k reply) w = Some w' ->
        comp w' = comp w /\ nodes w' = nodes w /\ plays w' = plays w
        /\ App.summaryAudio (app w')
           = match generateSpeech reply with
             | Returned a => Some a
             | Threw _ => App.summaryAudio (app w)
             end).
Proof.
  intros Hr. split.
  - intros b. now apply autoplay_effect_never_fires.
  - intros k reply w' Hk Hstep. cbn [step] in Hstep. rewrite Hk in Hstep.
    inversion Hstep; subst w'. clear Hstep. unfold settle.
    rewrite commit_quiet.
    + cbn [with_awaiting with_app comp nodes plays app fst].
      repeat split. now destruct (generateSpeech reply).
    + cbn [with_awaiting with_app app fst].
      destruct (generateSpeech reply); cbn; apply same_file_refl.
    + left. cbn [with_awaiting with_app app fst].
      now destruct (generateSpeech reply).
Qed.

Lemma generated_audio_does_not_autoplay_witness :
  exists w' : World,
    step (ApiSettled 0 (Responds "" (Some "AAAB/w=="%string)))
         (world_after generating_trace) = Some w'
    /\ comp w' = comp (world_after generating_trace)
    /\ plays w' = plays (world_after generating_trace).
Proof.
  destruct (generated_audio_does_not_autoplay (world_after generating_trace))
    as (_ & H).
  - exists generating_trace. vm_compute. reflexivity.
  - set (w' := world_after
                 (generating_trace
                  ++ [ApiSettled 0 (Responds "" (Some "AAAB/w=="%string))])).
    assert (Hstep : step (ApiSettled 0 (Responds "" (Some "AAAB/w=="%string)))
                         (world_after generating_trace) = Some w')
      by (vm_compute; reflexivity).
    destruct (H 0%nat (Responds "" (Some "AAAB/w=="%string)) w' eq_refl Hstep)
      as (A & _ & B & _).
    exists w'. split; [exact Hstep|]. split; [exact A | exact B].
Defined.

(** Choosing another audio file stops the playback: the source the
    controller refers to is halted and the flag cleared in the render that
    follows, and the results of the old file, audio included, are gone. *)
Theorem file_change_stops_playback (w : World) (k : nat) (f : App.File) :
  reachable w -> mounted w = true -> App.isLoading (app w) = false ->
  isPlaying (comp w) = true -> audioSourceRef (comp w) = Some k ->
  String.prefix "audio/" (App.file_type f) = true ->
  same_file (App.audioFile (app w)) (Some f) = false ->
  exists w' n,
    step (FileChosen (Some f)) w = Some w'
    /\ isPlaying (comp w') = false
    /\ nth_error (nodes w') k = Some n /\ node_state n = Stopped
    /\ App.audioFile (app w') = Some f
    /\ App.summary (app w') = ""%string
    /\ App.summaryAudio (app w') = None.
Proof.
  intros Hr Hm Hl Hp Hk Hf Hsame.
  destruct (playing_consistent w k Hr Hp Hk) as (n & Hn & Hst & Ho).
  set (w1 := with_app (App.handleFileChange (Some f) (app w)) w).
  assert (A1 : app w1 = App.setSummaryAudio None (App.setError None
                 (App.setSummary "" (App.setTranscription ""
                    (App.setAudioFile (Some f) (app w)))))).
  { unfold w1, App.handleFileChange. cbn [with_app app]. now rewrite Hf. }
  assert (Hc : commit (app w) w1 = setIsPlaying false (stop_current w1)).
  { unfold commit.
    assert (Hm1 : mounted w1 = true).
    { unfold mounted in *. now rewrite A1. }
    rewrite Hm1, A1. cbn [App.audioFile App.setSummaryAudio App.setError
      App.setSummary App.setTranscription App.setAudioFile].
    rewrite Hsame. unfold audioFile_effect.
    change (isPlaying (comp w1)) with (isPlaying (comp w)). rewrite Hp.
    rewrite autoplay_effect_off.
    - now destruct (_ && _ && _)%bool.
    - right. cbn [setIsPlaying with_comp app]. rewrite app_stop_current, A1.
      reflexivity. }
  exists (setIsPlaying false (stop_current w1)), (node_stop n).
  split.
  { cbn [step]. rewrite Hm, Hl. cbn [andb negb]. fold w1. now rewrite Hc. }
  split; [reflexivity|].
  assert (Hn1 : nth_error (nodes (setIsPlaying false (stop_current w1))) k
                = Some (node_stop n)).
  { unfold stop_current. change (audioSourceRef (comp w1))
      with (audioSourceRef (comp w)). rewrite Hk. cbn.
    now rewrite nth_error_update_nth_eq, Hn. }
  split; [exact Hn1|]. split; [unfold node_stop; now rewrite Hst|].
  cbn [setIsPlaying with_comp app]. rewrite app_stop_current, A1.
  repeat split.
Qed.

Lemma file_change_stops_playback_witness :
  exists w' n,
    step (FileChosen (Some (App.mkFile 1 "audio/wav")))
         (world_after (ready_trace ++ [PlayClicked; ResumeSettled 0]))
    = Some w'
    /\ isPlaying (comp w') = false
    /\ nth_error (nodes w') 0 = Some n /\ node_state n = Stopped
    /\ App.audioFile (app w') = Some (App.mkFile 1 "audio/wav")
    /\ App.summary (app w') = ""%string
    /\ App.summaryAudio (app w') = None.
Proof.
  refine (file_change_stops_playback
            (world_after (ready_trace ++ [PlayClicked; ResumeSettled 0]))
            0 (App.mkFile 1 "audio/wav") _ _ _ _ _ _ _).
  - exists (ready_trace ++ [PlayClicked; ResumeSettled 0])%list.
    vm_compute. reflexivity.
  - vm_compute. reflexivity.
  - vm_compute. reflexivity.
  - vm_compute. reflexivity.
  - vm_compute. reflexivity.
  - vm_compute. reflexivity.
  - vm_compute. reflexivity.
Defined.

(** Processing the file again does not stop the playback, and takes the
    control away: with the same file there is no effect to stop the source,
    which stays audible with the flag set, while the summary is cleared, so
    that the play and stop control is not rendered and cannot be used. *)
Theorem reprocess_keeps_playing (w : World) (k : nat) (f : App.File) :
  reachable w -> mounted w = true -> App.isLoading (app w) = false ->
  App.audioFile (app w) = Some f ->
  isPlaying (comp w) = true -> audioSourceRef (comp w) = Some k ->
  exists w' n,
    step ProcessClicked w = Some w'
    /\ isPlaying (comp w') = true
    /\ audioSourceRef (comp w') = Some k
    /\ nth_error (nodes w') k = Some n /\ node_state n = Playing
    /\ App.summary (app w') = ""%string
    /\ step PlayClicked w' = None.
Proof.
  intros Hr Hm Hl Hf Hp Hk.
  destruct (playing_consistent w k Hr Hp Hk) as (n & Hn & Hst & Ho).
  set (w1 := with_awaiting (awaiting w ++ [App.AwaitTranscribe])%list
               (with_app
                  (App.setLoadingStep "Transcribing audio..."
                     (App.setSummaryAudio None (App.setSummary ""
                        (App.setTranscription ""
                           (App.setError None
                              (App.setIsLoading true (app w)))))))
                  w)).
  assert (S1 : step ProcessClicked w = Some w1).
  { cbn [step]. rewrite Hm, Hl, Hf. cbn [andb negb].
    unfold App.processAudio. rewrite Hf. cbn [fst snd list_of_option].
    fold w1. rewrite commit_quiet; [reflexivity | | now right].
    unfold w1. cbn. rewrite Hf. apply (same_file_refl (Some f)). }
  exists w1, n. split; [exact S1|].
  split; [exact Hp|]. split; [exact Hk|]. split; [exact Hn|].
  split; [exact Hst|]. split; [reflexivity|].
  cbn [step]. unfold w1. cbn [with_awaiting with_app app].
  cbn [App.summary App.setLoadingStep App.setSummaryAudio App.setSummary
       truthy]. now rewrite andb_false_r.
Qed.

Lemma reprocess_keeps_playing_witness :
  exists w' n,
    step ProcessClicked
         (world_after (ready_trace ++ [PlayClicked; ResumeSettled 0]))
    = Some w'
    /\ isPlaying (comp w') = true
    /\ audioSourceRef (comp w') = Some 0
    /\ nth_error (nodes w') 0 = Some n /\ node_state n = Playing
    /\ App.summary (app w') = ""%string
    /\ step PlayClicked w' = None.
Proof.
  refine (reprocess_keeps_playing
            (world_after (ready_trace ++ [PlayClicked; ResumeSettled 0]))
            0 (App.mkFile 0 "audio/mpeg") _ _ _ _ _ _).
  - exists (ready_trace ++ [PlayClicked; ResumeSettled 0])%list.
    vm_compute. reflexivity.
  - vm_compute. reflexivity.
  - vm_compute. reflexivity.
  - vm_compute. reflexivity.
  - vm_compute. reflexivity.
  - vm_compute. reflexivity.
Defined.

(** Leaving the summarizer view stops the source the controller refers
    to: the cleanup of the unmount halts it, the state of the component is
    dropped, and the ended event of that source, when it comes, reaches no
    mounted component. *)
Theorem leaving_view_stops_source (w : World) (k : nat) :
  reachable w -> mounted w = true ->
  isPlaying (comp w) = true -> audioSourceRef (comp w) = Some k ->
  exists w' w'' n,
    step (ViewSelected App.chatbot) w = Some w'
    /\ mounted w' = false
    /\ comp w' = comp_initial
    /\ nth_error (nodes w') k = Some n /\ node_state n = Stopped
    /\ step (SourceEnded k) w' = Some w''
    /\ comp w'' = comp_initial.
Proof.
  intros Hr Hm Hp Hk.
  destruct (playing_consistent w k Hr Hp Hk) as (n & Hn & Hst & Ho).
  assert (Hv : App.view (app w) = App.summarizer).
  { unfold mounted in Hm. now destruct (App.view (app w)). }
  set (w' := selectView App.chatbot w).
  assert (N' : nodes w' = update_nth k node_stop (nodes w)).
  { unfold w', selectView, unmount_cleanup, stop_current.
    rewrite Hv, Hk. reflexivity. }
  assert (I' : instance w' = S (instance w)).
  { unfold w', selectView, unmount_cleanup, stop_current.
    rewrite Hv, Hk. reflexivity. }
  assert (C' : comp w' = comp_initial).
  { unfold w', selectView. rewrite Hv. reflexivity. }
  assert (Hn' : nth_error (nodes w') k = Some (node_stop n)).
  { now rewrite N', nth_error_update_nth_eq, Hn. }
  assert (Hst' : node_state (node_stop n) = Stopped).
  { unfold node_stop. now rewrite Hst. }
  exists w'. eexists. exists (node_stop n).
  split; [reflexivity|]. split.
  { unfold w', selectView, mounted. rewrite Hv. reflexivity. }
  split; [exact C'|]. split; [exact Hn'|]. split; [exact Hst'|].
  cbn [step]. rewrite Hn', Hst'. split; [reflexivity|].
  unfold onended. cbn [with_nodes instance].
  rewrite node_stop_owner, Ho, I'.
  destruct (Nat.eqb_spec (instance w) (S (instance w))) as [E|_]; [lia|].
  exact C'.
Qed.

Lemma leaving_view_stops_source_witness :
  exists w' w'' n,
    step (ViewSelected App.chatbot)
         (world_after (ready_trace ++ [PlayClicked; ResumeSettled 0]))
    = Some w'
    /\ mounted w' = false
    /\ comp w' = comp_initial
    /\ nth_error (nodes w') 0 = Some n /\ node_state n = Stopped
    /\ step (SourceEnded 0) w' = Some w''
    /\ comp w'' = comp_initial.
Proof.
  refine (leaving_view_stops_source
            (world_after (ready_trace ++ [PlayClicked; ResumeSettled 0]))
            0 _ _ _ _).
  - exists (ready_trace ++ [PlayClicked; ResumeSettled 0])%list.
    vm_compute. reflexivity.
  - vm_compute. reflexivity.
  - vm_compute. reflexivity.
  - vm_compute. reflexivity.
Defined.

(** Natural completion: when the source the playing controller refers to
    runs out, its handler returns the controller to idle, with the flag
    and the reference cleared and the node ended. *)
Theorem natural_completion_returns_to_idle (w : World) (k : nat) :
  reachable w ->
  isPlaying (comp w) = true -> audioSourceRef (comp w) = Some k ->
  exists w' n,
    step (SourceEnded k) w = Some w'
    /\ isPlaying (comp w') = false
    /\ audioSourceRef (comp w') = None
    /\ nth_error (nodes w') k = Some n /\ node_state n = Ended
    /\ app w' = app w.
Proof.
  intros Hr Hp Hk.
  destruct (playing_consistent w k Hr Hp Hk) as (n & Hn & Hst & Ho).
  eexists. exists (node_end n).
  split.
  { cbn [step]. rewrite Hn, Hst. reflexivity. }
  unfold onended. cbn [with_nodes instance]. rewrite Ho, Nat.eqb_refl.
  cbn. rewrite nth_error_update_nth_eq, Hn. repeat split.
Qed.

Lemma natural_completion_returns_to_idle_witness :
  exists w' n,
    step (SourceEnded 0)
         (world_after (ready_trace ++ [PlayClicked; ResumeSettled 0]))
    = Some w'
    /\ isPlaying (comp w') = false
    /\ audioSourceRef (comp w') = None
    /\ nth_error (nodes w') 0 = Some n /\ node_state n = Ended
    /\ app w'
       = app (world_after (ready_trace ++ [PlayClicked; ResumeSettled 0])).
Proof.
  refine (natural_completion_returns_to_idle
            (world_after (ready_trace ++ [PlayClicked; ResumeSettled 0]))
            0 _ _ _).
  - exists (ready_trace ++ [PlayClicked; ResumeSettled 0])%list.
    vm_compute. reflexivity.
  - vm_compute. reflexivity.
  - vm_compute. reflexivity.
Defined.

Lemma settle_quiet (k : nat) (r : App.State * option App.Suspended)
      (w : World) :
  same_file (App.audioFile (app w)) (App.audioFile (fst r)) = true ->
  App.isLoading (fst r) = false
  \/ truthy_option (App.summaryAudio (fst r)) = false ->
  settle k r w
  = with_awaiting (remove_nth k (awaiting w) ++ list_of_option (snd r))%list
      (with_app (fst r) w).
Proof. intros Hf Ha. unfold settle. now apply commit_quiet. Qed.

Lemma step_process (w : World) (f : App.File) :
  mounted w = true -> App.isLoading (app w) = false ->
  App.audioFile (app w) = Some f ->
  step ProcessClicked w
  = Some (with_awaiting (awaiting w ++ [App.AwaitTranscribe])%list
            (with_app (fst (App.processAudio (app w))) w)).
Proof.
  intros Hm Hl Hf. cbn [step]. rewrite Hm, Hl, Hf. cbn [andb negb].
  unfold App.processAudio. rewrite Hf. cbn [fst snd list_of_option].
  rewrite commit_quiet; [reflexivity | | now right].
  cbn. rewrite Hf. apply (same_file_refl (Some f)).
Qed.

(** The outcomes of "Transcribe & Summarize" on an idle App with a file.
    When the transcription fails, no result is kept and its error is
    shown; when the summary fails, the transcription obtained is kept, the
    summary stays empty and the error of the summary is shown; when both
    succeed, both results are kept and no error is shown.  In each case
    the App is idle again and there is no generated audio. *)
Theorem processAudio_outcomes (w : World) (f : App.File)
        (t s : string) (d d' : option string) :
  mounted w = true -> App.isLoading (app w) = false ->
  App.audioFile (app w) = Some f -> awaiting w = [] ->
  (exists w',
      run [ProcessClicked; ApiSettled 0 Rejects] w = Some w'
      /\ App.transcription (app w') = ""%string
      /\ App.summary (app w') = ""%string
      /\ App.error (app w')
         = Some "Failed to transcribe audio. The model may not have been able to process the file."%string
      /\ App.isLoading (app w') = false /\ awaiting w' = []
      /\ App.summaryAudio (app w') = None)
  /\ (exists w',
         run [ProcessClicked; ApiSettled 0 (Responds t d); ApiSettled 0 Rejects] w
         = Some w'
         /\ App.transcription (app w') = t
         /\ App.summary (app w') = ""%string
         /\ App.error (app w') = Some "Failed to summarize text."%string
         /\ App.isLoading (app w') = false /\ awaiting w' = []
         /\ App.summaryAudio (app w') = None)
  /\ (exists w',
         run [ProcessClicked; ApiSettled 0 (Responds t d);
              ApiSettled 0 (Responds s d')] w
         = Some w'
         /\ App.transcription (app w') = t
         /\ App.summary (app w') = s
         /\ App.error (app w') = None
         /\ App.isLoading (app w') = false /\ awaiting w' = []
         /\ App.summaryAudio (app w') = None).
Proof.
  intros Hm Hl Hf Ha.
  pose proof (step_process w f Hm Hl Hf) as S1. rewrite Ha in S1.
  cbn [app] in S1.
  assert (P1 : App.processAudio (app w)
               = (App.setLoadingStep "Transcribing audio..."
                    (App.setSummaryAudio None (App.setSummary ""
                       (App.setTranscription ""
                          (App.setError None
                             (App.setIsLoading true (app w)))))),
                  Some App.AwaitTranscribe)).
  { unfold App.processAudio. now rewrite Hf. }
  rewrite P1 in S1. cbn [fst] in S1.
  cbn [app] in S1.
  match type of S1 with
  | _ = Some ?x => remember x as w1 eqn:E1
  end.
  assert (A1 : app w1
               = App.setLoadingStep "Transcribing audio..."
                   (App.setSummaryAudio None (App.setSummary ""
                      (App.setTranscription ""
                         (App.setError None
                            (App.setIsLoading true (app w)))))))
    by now rewrite E1.
  assert (W1 : awaiting w1 = [App.AwaitTranscribe]) by now rewrite E1.
  clear E1 P1.
  assert (Q : forall r,
             App.audioFile (fst r) = Some f ->
             App.isLoading (fst r) = false
             \/ truthy_option (App.summaryAudio (fst r)) = false ->
             settle 0 r w1
             = with_awaiting (list_of_option (snd r)) (with_app (fst r) w1)).
  { intros r Hr Hq. rewrite settle_quiet; [now rewrite W1 | | exact Hq].
    rewrite A1, Hr. cbn. rewrite Hf. apply (same_file_refl (Some f)). }
  split; [|split].
  - eexists. split.
    + cbn [run]. rewrite S1. cbn [step]. rewrite W1. cbn [nth_error].
      rewrite Q; [reflexivity | | now left].
      cbn. rewrite A1. exact Hf.
    + cbn. rewrite A1. cbn. repeat split.
  - set (r1 := App.processAudio_transcribed
                 (transcribeAudio (Responds t d)) (app w1)).
    set (w2 := with_awaiting (list_of_option (snd r1)) (with_app (fst r1) w1)).
    assert (S2 : step (ApiSettled 0 (Responds t d)) w1 = Some w2).
    { cbn [step]. rewrite W1. cbn [nth_error]. fold r1. rewrite Q.
      - reflexivity.
      - unfold r1. cbn. rewrite A1. exact Hf.
      - right. unfold r1. cbn. now rewrite A1. }
    eexists. split.
    + cbn [run]. rewrite S1, S2. cbn [step].
      change (nth_error (awaiting w2) 0) with (Some App.AwaitSummarize).
      cbv iota. rewrite settle_quiet; [reflexivity | | now left].
      cbn. rewrite A1. cbn. rewrite Hf. apply (same_file_refl (Some f)).
    + cbn. rewrite A1. cbn. repeat split.
  - set (r1 := App.processAudio_transcribed
                 (transcribeAudio (Responds t d)) (app w1)).
    set (w2 := with_awaiting (list_of_option (snd r1)) (with_app (fst r1) w1)).
    assert (S2 : step (ApiSettled 0 (Responds t d)) w1 = Some w2).
    { cbn [step]. rewrite W1. cbn [nth_error]. fold r1. rewrite Q.
      - reflexivity.
      - unfold r1. cbn. rewrite A1. exact Hf.
      - right. unfold r1. cbn. now rewrite A1. }
    eexists. split.
    + cbn [run]. rewrite S1, S2. cbn [step].
      change (nth_error (awaiting w2) 0) with (Some App.AwaitSummarize).
      cbv iota. rewrite settle_quiet; [reflexivity | | now left].
      cbn. rewrite A1. cbn. rewrite Hf. apply (same_file_refl (Some f)).
    + cbn. rewrite A1. cbn.
      repeat match goal with |- _ /\ _ => split end; reflexivity.
Qed.

Lemma processAudio_outcomes_witness :
  exists w',
    run [ProcessClicked; ApiSettled 0 (Responds "spoken words" None);
         ApiSettled 0 Rejects]
        (world_after [FileChosen (Some (App.mkFile 0 "audio/mpeg"))])
    = Some w'
    /\ App.transcription (app w') = "spoken words"%string
    /\ App.summary (app w') = ""%string
    /\ App.error (app w') = Some "Failed to summarize text."%string
    /\ App.isLoading (app w') = false /\ awaiting w' = []
    /\ App.summaryAudio (app w') = None.
Proof.
  refine (proj1 (proj2
            (processAudio_outcomes
               (world_after [FileChosen (Some (App.mkFile 0 "audio/mpeg"))])
               (App.mkFile 0 "audio/mpeg")
               "spoken words" "" None None _ _ _ _)));
    vm_compute; reflexivity.
Defined.

(** A resumed [playBuffer] whose decoding succeeds, for any owner: the
    source is created and started in any case. *)
Lemma resumed_orphan (p : PendingPlay) (w : World)
      (pcm : Uint8Array) (buf : AudioBuffer) :
  play_owner p <> instance w ->
  Audio.decode (play_base64 p) = Ok pcm ->
  Audio.decodePcmData pcm
    (mkAudioContext (ctx_sampleRate (play_context p)) running) = Ok buf ->
  playBuffer_resumed p w
  = with_nodes (nodes w ++ [mkNode buf Playing (play_owner p)])%list w.
Proof.
  intros Ho Hd Hb. unfold playBuffer_resumed.
  apply Nat.eqb_neq in Ho. rewrite Ho, Hd, Hb.
  cbn [with_nodes instance]. now rewrite Ho.
Qed.

(** A play requested before the view is left still starts afterwards.
    When the context of a [playBuffer] call of an unmounted instance
    resumes and its audio decodes, a new source is created and started,
    while the mounted controller is left as it was and holds no reference
    to that source: nothing in the application can stop it. *)
Theorem late_play_reaches_no_controller
        (w : World) (k : nat) (p : PendingPlay) (buf : AudioBuffer) :
  reachable w ->
  nth_error (plays w) k = Some p -> play_owner p <> instance w ->
  decoded (play_base64 p) = Ok buf ->
  exists w',
    step (ResumeSettled k) w = Some w'
    /\ nodes w' = (nodes w ++ [mkNode buf Playing (play_owner p)])%list
    /\ comp w' = comp w
    /\ audioSourceRef (comp w') <> Some (List.length (nodes w))
    /\ plays w' = remove_nth k (plays w).
Proof.
  intros Hr Hk Ho Hd.
  pose proof (decoded_inv _ _
                (mkAudioContext (ctx_sampleRate (play_context p)) running)
                Hd) as Hd'.
  destruct (Audio.decode (play_base64 p)) as [pcm|] eqn:Edec; [|discriminate].
  eexists. split.
  { cbn [step]. rewrite Hk.
    rewrite (resumed_orphan p _ pcm buf); [reflexivity | exact Ho | exact Edec
                                           | exact Hd']. }
  cbn. split; [reflexivity|]. split; [reflexivity|]. split; [|reflexivity].
  apply reachable_consistent in Hr. unfold consistent in Hr.
  destruct (audioSourceRef (comp w)) as [j|]; [|discriminate].
  destruct Hr as (n & Hn & _). intros E. inversion E; subst j.
  assert (Hlt : (List.length (nodes w) < List.length (nodes w))%nat).
  { apply nth_error_Some. now rewrite Hn. }
  lia.
Qed.

Lemma late_play_reaches_no_controller_witness :
  exists w',
    step (ResumeSettled 0)
         (world_after (ready_trace ++ [PlayClicked; ViewSelected App.chatbot]))
    = Some w'
    /\ nodes w'
       = [mkNode (mkAudioBuffer 1 2 24000 [[Num 0; Num (-255 # 32768)]])
                 Playing 0]
    /\ comp w' = comp_initial
    /\ audioSourceRef (comp w') <> Some 0
    /\ plays w' = [].
Proof.
  refine (late_play_reaches_no_controller
            (world_after (ready_trace ++ [PlayClicked; ViewSelected App.chatbot]))
            0
            (mkPlay 0 (mkAudioContext 24000 suspended) "AAAB/w==")
            (mkAudioBuffer 1 2 24000 [[Num 0; Num (-255 # 32768)]])
            _ _ _ _).
  - exists (ready_trace ++ [PlayClicked; ViewSelected App.chatbot])%list.
    vm_compute. reflexivity.
  - vm_compute. reflexivity.
  - vm_compute. discriminate.
  - vm_compute. reflexivity.
Defined.

(** Two play requests before the first has started start two sources.
    On an idle controller with audio at hand, a second request issued
    while the first is still waiting for the context finds the flag clear
    and is not refused: once both have resumed, two sources are audible
    and the controller refers to the second; its stop halts the second
    only, and the first stays audible with no reference left to it. *)
Theorem two_requests_start_two_sources
        (w : World) (a : string) (buf : AudioBuffer) :
  mounted w = true ->
  truthy (App.summary (app w)) = true -> App.isLoading (app w) = false ->
  App.summaryAudio (app w) = Some a -> truthy a = true ->
  decoded a = Ok buf ->
  isPlaying (comp w) = false -> plays w = [] -> live w = [] ->
  exists w2 w3,
    run [PlayClicked; PlayClicked; ResumeSettled 0; ResumeSettled 0] w
    = Some w2
    /\ live w2 = [mkNode buf Playing (instance w);
                  mkNode buf Playing (instance w)]
    /\ isPlaying (comp w2) = true
    /\ audioSourceRef (comp w2) = Some (S (List.length (nodes w)))
    /\ step PlayClicked w2 = Some w3
    /\ isPlaying (comp w3) = false
    /\ live w3 = [mkNode buf Playing (instance w)]
    /\ nth_error (nodes w3) (List.length (nodes w))
       = Some (mkNode buf Playing (instance w)).
Proof.
  intros Hm Hs Hl Ha Ht Hd Hp Hpl Hlive.
  set (n := mkNode buf Playing (instance w)).
  (* first request *)
  pose proof (step_play_idle w a Hm Hs Hl Ha Ht Hp) as S1.
  set (w1 := playBuffer a w) in *.
  assert (P1 : exists c1, plays w1 = [mkPlay (instance w) c1 a]
                          /\ audioContextRef (comp w1) = Some c1
                          /\ ctx_state c1 <> closed).
  { unfold w1, playBuffer. rewrite Hpl. cbn.
    destruct (audioContextRef (comp w)) as [c|];
      [destruct (ctx_state c) eqn:Ec|];
      eexists; (split; [reflexivity|]); (split; [reflexivity|]);
      cbn; congruence. }
  destruct P1 as (c1 & Pl1 & Cx1 & Nc1).
  (* second request *)
  pose proof (step_play_idle w1 a Hm Hs Hl Ha Ht Hp) as S2.
  set (w2 := playBuffer a w1) in *.
  assert (Pl2 : plays w2 = [mkPlay (instance w) c1 a; mkPlay (instance w) c1 a]).
  { unfold w2, playBuffer. rewrite Pl1, Cx1. cbn.
    destruct (ctx_state c1); try reflexivity. congruence. }
  (* decoding *)
  pose proof (decoded_inv a (Ok buf)
                (mkAudioContext (ctx_sampleRate c1) running) Hd) as Hd'.
  destruct (Audio.decode a) as [pcm|] eqn:Edec; [|discriminate].
  (* first resume *)
  set (w3 := playBuffer_resumed (mkPlay (instance w) c1 a)
               (with_plays [mkPlay (instance w) c1 a] w2)).
  assert (S3 : step (ResumeSettled 0) w2 = Some w3).
  { cbn [step]. rewrite Pl2. reflexivity. }
  assert (E3 : w3 = mkWorld (app w) (awaiting w)
                      (mkComp true
                         (Some (mkAudioContext (ctx_sampleRate c1) running))
                         (Some (List.length (nodes w))))
                      (instance w) (nodes w ++ [n])%list
                      [mkPlay (instance w) c1 a]).
  { unfold w3. rewrite (resumed_ok _ _ pcm buf); try assumption; reflexivity. }
  (* second resume *)
  set (w4 := playBuffer_resumed (mkPlay (instance w) c1 a) (with_plays [] w3)).
  assert (S4 : step (ResumeSettled 0) w3 = Some w4).
  { assert (Pl3 : plays w3 = [mkPlay (instance w) c1 a])
      by (rewrite E3; reflexivity).
    cbn [step]. rewrite Pl3. reflexivity. }
  assert (E4 : w4 = mkWorld (app w) (awaiting w)
                      (mkComp true
                         (Some (mkAudioContext (ctx_sampleRate c1) running))
                         (Some (S (List.length (nodes w)))))
                      (instance w) (nodes w ++ [n; n])%list []).
  { unfold w4. rewrite (resumed_ok _ _ pcm buf); try assumption.
    - rewrite E3. cbn. rewrite length_app, <- app_assoc, Nat.add_1_r.
      reflexivity.
    - rewrite E3. reflexivity. }
  exists w4, (setIsPlaying false (stop_current w4)).
  split.
  { cbn [run]. now rewrite S1, S2, S3, S4. }
  rewrite E4.
  assert (L4 : live (mkWorld (app w) (awaiting w)
                      (mkComp true
                         (Some (mkAudioContext (ctx_sampleRate c1) running))
                         (Some (S (List.length (nodes w)))))
                      (instance w) (nodes w ++ [n; n])%list [])
               = [n; n]).
  { unfold live in *. cbn [nodes]. now rewrite filter_app, Hlive. }
  split; [exact L4|]. split; [reflexivity|]. split; [reflexivity|].
  split; [now apply step_play_playing|]. split; [reflexivity|].
  assert (N5 : nodes (setIsPlaying false
                 (stop_current
                    (mkWorld (app w) (awaiting w)
                       (mkComp true
                          (Some (mkAudioContext (ctx_sampleRate c1) running))
                          (Some (S (List.length (nodes w)))))
                       (instance w) (nodes w ++ [n; n])%list [])))
               = (nodes w ++ [n; node_stop n])%list).
  { unfold stop_current.
    cbn [comp audioSourceRef setIsPlaying with_comp with_nodes nodes].
    change (nodes w ++ [n; n])%list with (nodes w ++ [n] ++ [n])%list.
    rewrite !app_assoc.
    replace (S (List.length (nodes w)))
      with (List.length (nodes w ++ [n])%list)
      by (rewrite length_app; cbn; lia).
    rewrite (update_nth_last node_stop (nodes w ++ [n])%list n).
    now rewrite <- app_assoc. }
  split.
  - unfold live in *. rewrite N5, filter_app, Hlive. reflexivity.
  - rewrite N5. rewrite nth_error_app2, Nat.sub_diag by lia. reflexivity.
Qed.

Lemma two_requests_start_two_sources_witness :
  exists w2 w3,
    run [PlayClicked; PlayClicked; ResumeSettled 0; ResumeSettled 0]
        (world_after ready_trace)
    = Some w2
    /\ live w2
       = [mkNode (mkAudioBuffer 1 2 24000 [[Num 0; Num (-255 # 32768)]])
                 Playing 0;
          mkNode (mkAudioBuffer 1 2 24000 [[Num 0; Num (-255 # 32768)]])
                 Playing 0]
    /\ isPlaying (comp w2) = true
    /\ audioSourceRef (comp w2) = Some 1
    /\ step PlayClicked w2 = Some w3
    /\ isPlaying (comp w3) = false
    /\ live w3
       = [mkNode (mkAudioBuffer 1 2 24000 [[Num 0; Num (-255 # 32768)]])
                 Playing 0]
    /\ nth_error (nodes w3) 0
       = Some (mkNode (mkAudioBuffer 1 2 24000 [[Num 0; Num (-255 # 32768)]])
                      Playing 0).
Proof.
  refine (two_requests_start_two_sources (world_after ready_trace) "AAAB/w=="
            (mkAudioBuffer 1 2 24000 [[Num 0; Num (-255 # 32768)]])
            _ _ _ _ _ _ _ _ _); vm_compute; reflexivity.
Defined.

End Controller.

(** ** The conversation of the chatbot *)

Section Conversation.
Import GeminiService Chatbot.

Lemma chat_run_invariant (P : State -> Prop) :
  (forall e s s', P s -> Chatbot.step e s = Some s' -> P s') ->
  forall trace s s', P s -> Chatbot.run trace s = Some s' -> P s'.
Proof.
  intros Hstep. induction trace as [|e trace IH]; intros s s' Hs Hrun.
  - cbn in Hrun. now inversion Hrun; subst.
  - cbn in Hrun. destruct (Chatbot.step e s) as [s1|] eqn:E; [|discriminate].
    eapply IH; [|exact Hrun]. eapply Hstep; eauto.
Qed.

Definition one_send (s : State) : Prop :=
  (sending s = [] /\ isLoading s = false)
  \/ (exists m, sending s = [m] /\ isLoading s = true).

Lemma one_send_step (e : Event) (s s' : State) :
  one_send s -> Chatbot.step e s = Some s' -> one_send s'.
Proof.
  unfold one_send. intros H Hstep. destruct e; cbn [Chatbot.step] in Hstep.
  - destruct (isLoading s || negb (has_chat s))%bool; inversion Hstep; subst.
    exact H.
  - destruct (isLoading s || negb (has_chat s))%bool eqn:G;
      inversion Hstep; subst. clear Hstep.
    apply orb_false_iff in G. destruct G as (Gl & Gc).
    unfold handleSend. rewrite Gl, Gc. cbn [orb].
    destruct (blank (input s)); cbn [orb]; [exact H|].
    destruct H as [(Hs & _)|(m & _ & Hl)]; [|congruence].
    right. exists (input s). cbn. now rewrite Hs.
  - destruct (nth_error (sending s) k) as [m|] eqn:Ek; inversion Hstep; subst.
    clear Hstep. left.
    destruct H as [(Hs & _)|(m0 & Hs & _)]; rewrite Hs in Ek.
    + destruct k; discriminate.
    + destruct k as [|[|k]]; try discriminate.
      destruct r; cbn; rewrite Hs; split; reflexivity.
  - destruct (_ && _)%bool; inversion Hstep; subst; [exact H|].
    destruct ok; exact H.
Qed.

Lemma reachable_one_send (s : State) : Chatbot.reachable s -> one_send s.
Proof.
  intros (t & u & ok & trace & Hrun).
  eapply chat_run_invariant; [apply one_send_step | | exact Hrun].
  left. unfold mount. destruct ok; split; reflexivity.
Qed.

(** Without a chat session the component is inert. *)
Definition inert (s : State) : Prop :=
  has_chat s = false ->
  messages s = [] /\ sending s = [] /\ isLoading s = false
  /\ error s
     = Some "Failed to initialize the chatbot. Please check the API key."%string.

Lemma inert_step (e : Event) (s s' : State) :
  inert s -> Chatbot.step e s = Some s' -> inert s'.
Proof.
  unfold inert. intros H Hstep. destruct e; cbn [Chatbot.step] in Hstep.
  - destruct (has_chat s) eqn:Gc.
    + destruct (isLoading s); inversion Hstep; subst.
      unfold has_chat in *. cbn. intros G. congruence.
    + rewrite orb_true_r in Hstep. discriminate.
  - destruct (has_chat s) eqn:Gc.
    + destruct (isLoading s) eqn:Gl; inversion Hstep; subst.
      unfold handleSend. rewrite Gl, Gc.
      destruct (blank (input s)); cbn [orb negb]; [congruence|].
      unfold has_chat in *. cbn. intros G. congruence.
    + rewrite orb_true_r in Hstep. discriminate.
  - destruct (nth_error (sending s) k) as [m|] eqn:Ek; inversion Hstep; subst.
    intros G. assert (Gc : has_chat s = false).
    { destruct r; exact G. }
    destruct (H Gc) as (_ & Hs & _). rewrite Hs in Ek.
    destruct k; discriminate.
  - destruct (_ && _)%bool; inversion Hstep; subst; [exact H|].
    destruct ok; [intros G; discriminate G|].
    intros G. cbn in G. destruct (H G) as (Hm & Hs & Hl & _).
    cbn. repeat match goal with |- _ /\ _ => split end; auto.
Qed.

(** The chatbot sends one message at a time: in every state the component
    can reach, at most one call of [handleSend] is suspended, and the
    loading flag is set exactly while one is. *)
Theorem chatbot_sends_one_at_a_time (s : State) :
  Chatbot.reachable s ->
  (List.length (sending s) <= 1)%nat
  /\ (isLoading s = true <-> sending s <> []).
Proof.
  intros Hr. destruct (reachable_one_send s Hr) as [(Hs & Hl)|(m & Hs & Hl)];
    rewrite Hs, Hl; cbn.
  - split; [lia|]. split; congruence.
  - split; [lia|]. split; congruence.
Qed.

Lemma chatbot_sends_one_at_a_time_witness :
  (List.length
     (sending (handleSend
                 (mkState "" "" (chat (mount "" "" true))
                          (messages (mount "" "" true)) "hi" false None [])))
   <= 1)%nat.
Proof.
  refine (proj1 (chatbot_sends_one_at_a_time _ _)).
  exists ""%string, ""%string, true, [InputChanged "hi"; SendRequested].
  vm_compute. reflexivity.
Defined.

(** A chat session that could not be created leaves the component inert:
    in every reachable state without a session the conversation is empty,
    nothing is being sent, and the initialisation error is the one shown. *)
Theorem chatbot_without_session_is_inert (s : State) :
  Chatbot.reachable s -> has_chat s = false ->
  messages s = [] /\ sending s = [] /\ isLoading s = false
  /\ error s
     = Some "Failed to initialize the chatbot. Please check the API key."%string.
Proof.
  intros (t & u & ok & trace & Hrun). change (inert s).
  eapply (chat_run_invariant inert); [apply inert_step | | exact Hrun].
  unfold inert, mount. destruct ok; cbn; [discriminate|].
  intros _. repeat match goal with |- _ /\ _ => split end; reflexivity.
Qed.

Lemma chatbot_without_session_is_inert_witness :
  messages (mount "t" "s" false) = [].
Proof.
  refine (proj1 (chatbot_without_session_is_inert _ _ _)).
  - exists "t"%string, "s"%string, false, []. reflexivity.
  - reflexivity.
Defined.

(** A send and its reply, on a component that is not sending: the user's
    message is appended and the input cleared at once; a reply appends the
    model's message after it; a failure removes the user's message again,
    so that the conversation is the one before the send, shows the error
    with the exception's message, and leaves the input empty. *)
Theorem send_then_reply (s : State) (r : Outcome string) :
  Chatbot.reachable s ->
  isLoading s = false -> has_chat s = true -> blank (input s) = false ->
  exists s1 s2,
    Chatbot.step SendRequested s = Some s1
    /\ Chatbot.step (SendSettled 0 r) s1 = Some s2
    /\ messages s1 = (messages s ++ [mkMessage user (input s)])%list
    /\ input s1 = ""%string /\ isLoading s1 = true /\ error s1 = None
    /\ input s2 = ""%string /\ isLoading s2 = false /\ sending s2 = []
    /\ match r with
       | Returned reply =>
           messages s2
           = (messages s
              ++ [mkMessage user (input s); mkMessage model reply])%list
           /\ error s2 = None
       | Threw e =>
           messages s2 = messages s
           /\ error s2
              = Some ("Failed to get response: "
                      ++ match e with
                         | ErrorObject message => message
                         | NotAnError => "An unknown error occurred."
                         end)%string
       end.
Proof.
  intros Hr Hl Hc Hb.
  assert (Hs : sending s = []).
  { destruct (reachable_one_send s Hr) as [(Hs & _)|(m & _ & Hl')];
      [exact Hs | congruence]. }
  destruct s as [t u c ms i l er sd].
  cbn [isLoading sending input] in Hl, Hs, Hb. subst l sd.
  cbn [Chatbot.step isLoading]. rewrite Hc. cbn [orb negb].
  unfold handleSend. cbn [input isLoading]. rewrite Hc, Hb. cbn [orb negb].
  cbn [sending app nth_error Chatbot.remove_nth messages input isLoading error
       transcription summary chat].
  do 2 eexists. split; [reflexivity|]. split; [reflexivity|].
  destruct r as [reply|e]; cbn;
    repeat match goal with |- _ /\ _ => split end; try reflexivity.
  - now rewrite <- app_assoc.
  - apply removelast_last.
Qed.

Lemma send_then_reply_witness :
  exists s1 s2,
    Chatbot.step SendRequested
      (mkState "" "" (chat (mount "" "" true)) (messages (mount "" "" true))
               "hi" false None []) = Some s1
    /\ Chatbot.step (SendSettled 0 (Threw (ErrorObject "offline"))) s1
       = Some s2
    /\ messages s2 = messages (mount "" "" true)
    /\ error s2 = Some "Failed to get response: offline"%string.
Proof.
  destruct (send_then_reply
              (mkState "" "" (chat (mount "" "" true))
                       (messages (mount "" "" true)) "hi" false None [])
              (Threw (ErrorObject "offline")))
    as (s1 & s2 & H1 & H2 & _ & _ & _ & _ & _ & _ & _ & Hm & He).
  - exists ""%string, ""%string, true, [InputChanged "hi"]. reflexivity.
  - reflexivity.
  - reflexivity.
  - reflexivity.
  - exists s1, s2. repeat match goal with |- _ /\ _ => split end; assumption.
Defined.

(** New props while a message is being sent: the conversation is replaced
    by the greeting of the new session, so the user's message is no longer
    in it; a reply that arrives then is appended to the greeting, and a
    failure removes the greeting, leaving the conversation empty. *)
Theorem new_props_during_send (s : State) (t u : string) (r : Outcome string) :
  Chatbot.reachable s ->
  isLoading s = false -> has_chat s = true -> blank (input s) = false ->
  ((t =? transcription s) && (u =? summary s))%string = false ->
  exists s3,
    Chatbot.run [SendRequested; PropsChanged t u true; SendSettled 0 r] s
    = Some s3
    /\ chat s3 = chat (mount t u true)
    /\ isLoading s3 = false
    /\ messages s3
       = match r with
         | Returned reply =>
             (messages (mount t u true) ++ [mkMessage model reply])%list
         | Threw _ => []
         end.
Proof.
  intros Hr Hl Hc Hb Hp.
  assert (Hs : sending s = []).
  { destruct (reachable_one_send s Hr) as [(Hs & _)|(m & _ & Hl')];
      [exact Hs | congruence]. }
  cbn [Chatbot.run Chatbot.step]. rewrite Hl, Hc. cbn [orb negb].
  unfold handleSend. rewrite Hl, Hc, Hb, Hs. cbn [orb negb].
  cbn [transcription summary]. rewrite Hp.
  unfold initChat, mount.
  cbn [sending app nth_error Chatbot.remove_nth messages input isLoading error
       transcription summary chat].
  eexists. split; [reflexivity|].
  destruct r as [reply|e]; cbn;
    repeat match goal with |- _ /\ _ => split end; reflexivity.
Qed.

Lemma new_props_during_send_witness :
  exists s3,
    Chatbot.run [SendRequested; PropsChanged "t" "s" true;
                 SendSettled 0 (Threw NotAnError)]
      (mkState "" "" (chat (mount "" "" true)) (messages (mount "" "" true))
               "hi" false None []) = Some s3
    /\ messages s3 = [].
Proof.
  destruct (new_props_during_send
              (mkState "" "" (chat (mount "" "" true))
                       (messages (mount "" "" true)) "hi" false None [])
              "t" "s" (Threw NotAnError))
    as (s3 & H1 & _ & _ & Hm).
  - exists ""%string, ""%string, true, [InputChanged "hi"]. reflexivity.
  - reflexivity.
  - reflexivity.
  - reflexivity.
  - reflexivity.
  - exists s3. split; assumption.
Defined.

End Conversation.
